(** * NativeClass transformer: a shallow embedding and its properties

    Source: [packages/webpack5/src/transformers/NativeClass/index.ts].

    The transformer walks a TypeScript syntax tree, finds class declarations
    decorated with [@NativeClass], hands their text (marker removed by a
    regular-expression replace) to [ts.transpileModule] with fixed ES5
    options, patches [enumerable: false] in the emitted text by a second
    regular-expression replace and splices the result back as an identifier
    node.

    JavaScript strings are sequences of UTF-16 code units; they are modelled
    as lists of [N].  The two regular expressions of the source are kept as
    syntax trees and run by a backtracking matcher written in the
    continuation style of the ECMAScript specification. *)

From Stdlib Require Import List NArith ZArith Bool Arith Lia.
From Stdlib Require Strings.String Strings.Ascii DecimalString.
Import ListNotations.
Import String.StringSyntax.
Delimit Scope string_scope with js.

Set Implicit Arguments.
Set Warnings "-register-all".

(** ** JavaScript strings *)

Module JsString.

Definition codeunit := N.
Definition jsstring := list codeunit.

(** A string literal of the source, as code units (the literals used here
    are ASCII, one code unit for each character). *)
Definition lit (s : String.string) : jsstring :=
  List.map Ascii.N_of_ascii (String.list_ascii_of_string s).
Arguments lit s%_js.

(** [s.startsWith(p)] on code units. *)
Fixpoint prefix (p s : jsstring) : bool :=
  match p, s with
  | [], _ => true
  | _ :: _, [] => false
  | a :: p', b :: s' => N.eqb a b && prefix p' s'
  end.

(** [String.prototype.indexOf]: position of the first occurrence of [pat]
    at or after the current position [i], or [-1]. *)
Fixpoint indexOf_from (pat s : jsstring) (i : Z) : Z :=
  if prefix pat s then i
  else match s with
       | [] => (-1)%Z
       | _ :: s' => indexOf_from pat s' (i + 1)%Z
       end.

Definition indexOf (s pat : jsstring) : Z := indexOf_from pat s 0%Z.

(** ECMAScript LineTerminator code points. *)
Definition isLineTerminator (c : codeunit) : bool :=
  (N.eqb c 10 || N.eqb c 13 || N.eqb c 8232 || N.eqb c 8233)%N.

(** ECMAScript WhiteSpace and LineTerminator code points: what [\s] matches
    and what [trim] strips. *)
Definition isWhiteSpace (c : codeunit) : bool :=
  (N.eqb c 9 || N.eqb c 11 || N.eqb c 12 || N.eqb c 32 || N.eqb c 160
   || N.eqb c 5760 || (N.leb 8192 c && N.leb c 8202)
   || N.eqb c 8239 || N.eqb c 8287 || N.eqb c 12288 || N.eqb c 65279
   || isLineTerminator c)%N.

Fixpoint dropWhile (p : codeunit -> bool) (s : jsstring) : jsstring :=
  match s with
  | [] => []
  | c :: s' => if p c then dropWhile p s' else s
  end.

Definition trimStart (s : jsstring) : jsstring := dropWhile isWhiteSpace s.
Definition trimEnd (s : jsstring) : jsstring :=
  rev (dropWhile isWhiteSpace (rev s)).

(** [String.prototype.trim]. *)
Definition trim (s : jsstring) : jsstring := trimEnd (trimStart s).

(** [pat] occurs somewhere in [s]: the truth value of
    [s.indexOf(pat) > -1]. *)
Fixpoint occurs (pat s : jsstring) : bool :=
  prefix pat s
  || match s with
     | [] => false
     | _ :: s' => occurs pat s'
     end.

(** No proper non-empty suffix of [pat] is a prefix of [pat]: two
    occurrences of such a pattern never overlap. *)
Definition borderless (pat : jsstring) : bool :=
  forallb (fun k => negb (prefix (skipn k pat) pat))
          (seq 1 (length pat - 1)).

End JsString.
Import JsString.

(** ** Regular expressions

    The fragment of ECMAScript regular expressions the two patterns use:
    character classes, concatenation, alternation, greedy and lazy
    repetition, the optional quantifier and capture groups. *)

Module Regex.

Inductive regex : Type :=
| Empty
| Class (p : codeunit -> bool)
| Seq (r1 r2 : regex)
| Alt (r1 r2 : regex)
| Star (greedy : bool) (r : regex)
| Opt (greedy : bool) (r : regex)
| Group (i : nat) (r : regex).

Definition Char (c : codeunit) : regex := Class (N.eqb c).

(** A literal run of characters. *)
Fixpoint Lit (l : jsstring) : regex :=
  match l with
  | [] => Empty
  | c :: l' => Seq (Char c) (Lit l')
  end.

(** [.] without the [s] flag, and with it. *)
Definition Dot : regex := Class (fun c => negb (isLineTerminator c)).
Definition Any : regex := Class (fun _ => true).

Definition captures := list (nat * jsstring).

(** The state at the end of a match: the input left and the captures. *)
Definition result := (jsstring * captures)%type.
Definition cont := jsstring -> captures -> option result.
Definition matcher := jsstring -> captures -> cont -> option result.

Definition orelse (a b : option result) : option result :=
  match a with Some x => Some x | None => b end.

(** RepeatMatcher of the ECMAScript specification for [*] and [*?]: an
    iteration that consumes nothing is rejected, so the input length bounds
    the number of iterations. *)
Fixpoint star_loop (mr : matcher) (greedy : bool) (k : cont)
         (fuel : nat) (s : jsstring) (cs : captures) : option result :=
  match fuel with
  | O => k s cs
  | S fuel' =>
      let iter :=
        mr s cs (fun s' cs' =>
                   if Nat.ltb (length s') (length s)
                   then star_loop mr greedy k fuel' s' cs'
                   else None) in
      if greedy then orelse iter (k s cs) else orelse (k s cs) iter
  end.

Fixpoint m (r : regex) : matcher :=
  match r with
  | Empty => fun s cs k => k s cs
  | Class p =>
      fun s cs k =>
        match s with
        | c :: s' => if p c then k s' cs else None
        | [] => None
        end
  | Seq r1 r2 => fun s cs k => m r1 s cs (fun s' cs' => m r2 s' cs' k)
  | Alt r1 r2 => fun s cs k => orelse (m r1 s cs k) (m r2 s cs k)
  | Star g r1 => fun s cs k => star_loop (m r1) g k (length s) s cs
  | Opt g r1 =>
      fun s cs k =>
        let iter :=
          m r1 s cs (fun s' cs' =>
                       if Nat.ltb (length s') (length s) then k s' cs'
                       else None) in
        if g then orelse iter (k s cs) else orelse (k s cs) iter
  | Group i r1 =>
      fun s cs k =>
        m r1 s cs (fun s' cs' =>
                     k s' ((i, firstn (length s - length s') s) :: cs'))
  end.

(** One attempt of the pattern at the current position. *)
Definition exec (r : regex) (s : jsstring) : option result :=
  m r s [] (fun s' cs' => Some (s', cs')).

(** The text of capture [i]; the last write wins, an unset group is empty. *)
Fixpoint capture (i : nat) (cs : captures) : jsstring :=
  match cs with
  | [] => []
  | (j, t) :: cs' => if Nat.eqb i j then t else capture i cs'
  end.

(** Replacement templates: literal text and [$n] references. *)
Inductive piece : Type :=
| Text (t : jsstring)
| Ref (i : nat).

Definition template := list piece.

Fixpoint expand (t : template) (cs : captures) : jsstring :=
  match t with
  | [] => []
  | Text x :: t' => x ++ expand t' cs
  | Ref i :: t' => capture i cs ++ expand t' cs
  end.

(** [s.replace(/r/g, t)]: scan left to right; at each position outside a
    previous match try the pattern; a match is replaced by the expanded
    template and scanning resumes at its end (one position further when the
    match is empty).  [skip] counts the characters of the current match
    still to be passed over. *)
Fixpoint replace_go (r : regex) (t : template) (skip : nat) (s : jsstring)
  : jsstring :=
  match s with
  | [] =>
      match skip with
      | O => match exec r [] with
             | Some (_, cs) => expand t cs
             | None => []
             end
      | S _ => []
      end
  | c :: s' =>
      match skip with
      | S n => replace_go r t n s'
      | O =>
          match exec r s with
          | Some (rest, cs) =>
              match length s - length rest with
              | O => expand t cs ++ c :: replace_go r t 0 s'
              | S n => expand t cs ++ replace_go r t n s'
              end
          | None => c :: replace_go r t 0 s'
          end
      end
  end.

Definition replace_global (r : regex) (t : template) (s : jsstring)
  : jsstring := replace_go r t 0 s.

End Regex.
Import Regex.

(** ** The TypeScript compiler interface used by the transformer *)

Module Ts.

Inductive SyntaxKind : Type :=
| Identifier
| Parameter_
| PropertyDeclaration
| MethodDeclaration
| GetAccessor
| SetAccessor
| ClassExpression
| ClassDeclaration
| FunctionDeclaration
| VariableStatement
| Block
| OtherKind (tag : N).

(** A decorator node, as far as the transformer looks at it: its source text
    with and without the trivia (white space, comments) in front of it. *)
Record Decorator : Type := mkDecorator {
  dec_leadingTrivia : jsstring;
  dec_text : jsstring
}.

(** A syntax-tree node: its kind, what [ts.getDecorators] yields for it
    ([None] is [undefined]), its leading trivia, its source text and its
    children in the order [ts.visitEachChild] visits them. *)
Inductive Node : Type :=
| mkNode (kind : SyntaxKind) (decorators : option (list Decorator))
         (leadingTrivia text : jsstring) (children : list Node).

Definition kind (n : Node) : SyntaxKind :=
  match n with mkNode k _ _ _ _ => k end.
Definition getDecorators (n : Node) : option (list Decorator) :=
  match n with mkNode _ ds _ _ _ => ds end.
Definition leadingTrivia (n : Node) : jsstring :=
  match n with mkNode _ _ tr _ _ => tr end.
Definition children (n : Node) : list Node :=
  match n with mkNode _ _ _ _ cs => cs end.

(** [node.getText()]: the source text from the first token of the node. *)
Definition getText (n : Node) : jsstring :=
  match n with mkNode _ _ _ t _ => t end.

(** [node.getFullText()]: the source text with the leading trivia. *)
Definition getFullText (n : Node) : jsstring := leadingTrivia n ++ getText n.
Definition dec_getFullText (d : Decorator) : jsstring :=
  dec_leadingTrivia d ++ dec_text d.

Definition isClassDeclaration (n : Node) : bool :=
  match kind n with ClassDeclaration => true | _ => false end.

(** [ts.canHaveDecorators], as the compiler defines it: the node kinds that
    may carry decorators. *)
Definition canHaveDecorators (n : Node) : bool :=
  match kind n with
  | Parameter_ | PropertyDeclaration | MethodDeclaration | GetAccessor
  | SetAccessor | ClassExpression | ClassDeclaration => true
  | _ => false
  end.

(** [ts.factory.createIdentifier(text)]: a synthesized leaf. *)
Definition createIdentifier (text : jsstring) : Node :=
  mkNode Identifier None [] text [].

(** The node [ts.visitEachChild] returns: the same node around the visited
    children. *)
Definition updateChildren (n : Node) (cs : list Node) : Node :=
  match n with mkNode k ds tr t _ => mkNode k ds tr t cs end.

Record SourceFile : Type := mkSourceFile {
  fileName : jsstring;
  statements : list Node
}.

(** [ts.factory.updateSourceFile(source, statements)]. *)
Definition updateSourceFile (source : SourceFile) (stmts : list Node)
  : SourceFile :=
  {| fileName := fileName source; statements := stmts |}.

Inductive ModuleKind : Type :=
| MK_None | MK_CommonJS | MK_AMD | MK_UMD | MK_System | MK_ES2015
| MK_ES2020 | MK_ES2022 | MK_ESNext | MK_Node16 | MK_NodeNext.

Inductive ScriptTarget : Type :=
| ES3 | ES5 | ES2015 | ES2016 | ES2017 | ES2018 | ES2019 | ES2020
| ES2021 | ES2022 | ESNext.

(** The compiler options the transformer sets. *)
Record CompilerOptions : Type := mkCompilerOptions {
  noEmitHelpers : bool;
  module : ModuleKind;
  target : ScriptTarget
}.

(** [ts.TranspileOptions]; [reportDiagnostics] is optional. *)
Record TranspileOptions : Type := mkTranspileOptions {
  compilerOptions : CompilerOptions;
  reportDiagnostics : option bool
}.

Record Diagnostic : Type := mkDiagnostic {
  code : N;
  messageText : jsstring
}.

(** [ts.TranspileOutput]. *)
Record TranspileOutput : Type := mkTranspileOutput {
  outputText : jsstring;
  diagnostics : option (list Diagnostic)
}.

(** A JavaScript exception. *)
Inductive exn : Type :=
| Thrown (message : jsstring).

End Ts.
Import Ts.

(** ** Effects: the calls to the nested compiler and exceptions

    A computation yields a value or an exception and the list of calls to
    [ts.transpileModule] it made, in order. *)

Module Eff.

Record TranspileCall : Type := mkCall {
  call_input : jsstring;
  call_options : TranspileOptions
}.

Definition M (A : Type) : Type := ((exn + A) * list TranspileCall)%type.

Definition ret {A} (a : A) : M A := (inr a, []).

Definition throw {A} (e : exn) : M A := (inl e, []).

Definition bind {A B} (c : M A) (f : A -> M B) : M B :=
  match c with
  | (inl e, l) => (inl e, l)
  | (inr a, l) => let (r, l') := f a in (r, l ++ l')
  end.

Definition value {A} (c : M A) : exn + A := fst c.
Definition calls {A} (c : M A) : list TranspileCall := snd c.

(** Visit a list of nodes left to right ([ts.visitNodes] with a visitor that
    returns one node for each node). *)
Definition mapM {A B} (f : A -> M B) : list A -> M (list B) :=
  fix go (l : list A) : M (list B) :=
    match l with
    | [] => ret []
    | a :: l' =>
        bind (f a) (fun b => bind (go l') (fun bs => ret (b :: bs)))
    end.

End Eff.
Import Eff.

Notation "x <- c ;; k" := (bind c (fun x => k))
  (at level 61, c at next level, right associativity).

(** ** The transformer *)

Module NativeClass.

(** The marker tag, ['@NativeClass']. *)
Definition tag : jsstring := lit "@NativeClass".

(** [/@NativeClass(\((.|\n)*?\))?/gm] *)
Definition marker_re : regex :=
  Seq (Lit tag)
      (Opt true
           (Group 1
                  (Seq (Char 40%N)
                       (Seq (Star false (Group 2 (Alt Dot (Char 10%N))))
                            (Char 41%N))))).

(** [/(Object\.defineProperty\(.*?{.*?)(enumerable:\s*false)(.*?}\))/gs] *)
Definition enumerable_re : regex :=
  Seq (Group 1
             (Seq (Lit (lit "Object.defineProperty("))
                  (Seq (Star false Any)
                       (Seq (Char 123%N) (Star false Any)))))
      (Seq (Group 2
                  (Seq (Lit (lit "enumerable:"))
                       (Seq (Star true (Class isWhiteSpace))
                            (Lit (lit "false")))))
           (Group 3 (Seq (Star false Any) (Lit (lit "})"))))).

(** ['$1enumerable: true$3'] *)
Definition enumerable_template : template :=
  [Ref 1; Text (lit "enumerable: true"); Ref 3].

(** [text.replace(/@NativeClass(\((.|\n)*?\))?/gm, '')] *)
Definition removeMarker (text : jsstring) : jsstring :=
  replace_global marker_re [] text.

(** [outputText.replace(/(Object...)/gs, '$1enumerable: true$3')] *)
Definition patchEnumerable (text : jsstring) : jsstring :=
  replace_global enumerable_re enumerable_template text.

(** The options object of the call to [ts.transpileModule]. *)
Definition transpileOptions : TranspileOptions :=
  {| compilerOptions :=
       {| noEmitHelpers := true; module := MK_ESNext; target := ES5 |};
     reportDiagnostics := None |}.

(** What a JavaScript [a && b && c] chain of the detector can evaluate to. *)
Inductive jsval : Type :=
| JUndefined
| JBool (b : bool).

(** ToBoolean, as the [if] of [visitNode] applies it. *)
Definition truthy (v : jsval) : bool :=
  match v with
  | JBool b => b
  | JUndefined => false
  end.

(** The test of the [filter] callback on one decorator. *)
Definition hasTag (d : Decorator) : bool :=
  let fullText := trim (dec_getFullText d) in
  (indexOf fullText tag >? -1)%Z.

(** [canHaveDecorators(node) && getDecorators(node) && filter(...).length > 0]:
    the first falsy operand, [false] or [undefined], or else the comparison
    (an array, even an empty one, is truthy). *)
Definition isNativeClassExtension (node : Node) : jsval :=
  if canHaveDecorators node then
    match getDecorators node with
    | None => JUndefined
    | Some ds => JBool (0 <? length (filter hasTag ds))
    end
  else JBool false.

Section Transformer.

(** [ts.transpileModule], the nested compiler: it returns an output or
    throws. *)
Variable transpileModule : jsstring -> TranspileOptions -> exn + TranspileOutput.

Definition callTranspile (input : jsstring) (o : TranspileOptions)
  : M TranspileOutput :=
  (transpileModule input o, [mkCall input o]).

Definition createHelper (node : Node) : M Node :=
  out <- callTranspile (removeMarker (getText node)) transpileOptions ;;
  ret (createIdentifier (patchEnumerable (outputText out))).

(** [ts.visitEachChild(node, visitor, ctx)]: the children are visited in
    order and the node is rebuilt around the results. *)
Definition visitEachChild (node : Node) (visitor : Node -> M Node) : M Node :=
  cs <- mapM visitor (children node) ;;
  ret (updateChildren node cs).

Fixpoint visitNode (node : Node) : M Node :=
  if isClassDeclaration node && truthy (isNativeClassExtension node)
  then createHelper node
  else visitEachChild node visitNode.

(** [ts.visitNodes(nodes, visitor)]. *)
Definition visitNodes (nodes : list Node) (visitor : Node -> M Node)
  : M (list Node) := mapM visitor nodes.

(** The transformer the default export returns. *)
Definition transform (source : SourceFile) : M SourceFile :=
  stmts <- visitNodes (statements source) visitNode ;;
  ret (updateSourceFile source stmts).

End Transformer.

End NativeClass.
Import NativeClass.

(** ** What the two patterns match

    Functions that describe the matches of the marker pattern; the
    properties below relate them to the matcher. *)

(** Where the lazy [(.|\n)*?\)] ends: behind the first [)], provided every
    character in front of it is matched by [.] or is a line feed. *)
Fixpoint closeParen (s : jsstring) : option jsstring :=
  match s with
  | [] => None
  | c :: s' =>
      if N.eqb 41 c then Some s'
      else if negb (isLineTerminator c) || N.eqb 10 c then closeParen s'
           else None
  end.

(** The input left behind a match of the marker pattern, [rest] being the
    text behind the tag. *)
Definition afterMarker (rest : jsstring) : jsstring :=
  match rest with
  | c :: s' =>
      if N.eqb 40 c
      then match closeParen s' with Some r => r | None => rest end
      else rest
  | [] => []
  end.

(** Shapes of a marker annotation: the tag alone or with a closed argument
    list. *)
Definition argumentList (args : option jsstring) : jsstring :=
  match args with
  | Some a => [40%N] ++ a ++ [41%N]
  | None => []
  end.

(** An argument list the optional group of the pattern takes whole: no [)]
    inside and every character matched by [.] or a line feed; without an
    argument list, the text behind the tag does not open a parenthesis. *)
Definition plainArguments (args : option jsstring) (post : jsstring) : bool :=
  match args with
  | Some a =>
      forallb (fun c => negb (N.eqb 41 c)
                        && (negb (isLineTerminator c) || N.eqb 10 c)) a
  | None =>
      match post with
      | c :: _ => negb (N.eqb 40 c)
      | [] => true
      end
  end.

(** ** Measures on syntax trees *)

(** The condition of [visitNode]. *)
Definition matched (n : Node) : bool :=
  isClassDeclaration n && truthy (isNativeClassExtension n).

(** Some node of the subtree satisfies the condition of [visitNode]. *)
Fixpoint containsMatch (n : Node) : bool :=
  match n with
  | mkNode _ _ _ _ cs => matched n || existsb containsMatch cs
  end.


(** Those of them that do not lie inside another one. *)
Fixpoint countOutermost (n : Node) : nat :=
  match n with
  | mkNode _ _ _ _ cs =>
      if matched n then 1 else list_sum (map countOutermost cs)
  end.





(** The nested compiler throws for an accepted declaration that the
    traversal reaches in the subtree. *)
Inductive Throws (tm : jsstring -> TranspileOptions -> exn + TranspileOutput)
  : Node -> Prop :=
| Throws_here n e :
    matched n = true ->
    tm (removeMarker (getText n)) transpileOptions = inl e ->
    Throws tm n
| Throws_below n c :
    matched n = false -> In c (children n) -> Throws tm c -> Throws tm n.

(** ** Sample inputs *)

Module Samples.

(** A nested compiler that emits its input as it is and reports nothing. *)
Definition echoCompiler (input : jsstring) (_ : TranspileOptions)
  : exn + TranspileOutput :=
  inr {| outputText := input; diagnostics := None |}.

(** Parentheses of the text are balanced. *)
Fixpoint balanced (depth : nat) (s : jsstring) : bool :=
  match s with
  | [] => Nat.eqb depth 0
  | c :: s' =>
      if N.eqb c 40 then balanced (S depth) s'
      else if N.eqb c 41
           then match depth with O => false | S d => balanced d s' end
           else balanced depth s'
  end.

Definition parenExpected : Diagnostic :=
  {| code := 1005; messageText := lit "')' expected." |}.

(** A nested compiler that recovers from a syntax error as
    [ts.transpileModule] does: it does not throw, it emits what it can, and
    it returns diagnostics only when [reportDiagnostics] asks for them. *)
Definition recoveringCompiler (input : jsstring) (o : TranspileOptions)
  : exn + TranspileOutput :=
  inr {| outputText := input;
         diagnostics :=
           match reportDiagnostics o with
           | Some true =>
               Some (if balanced 0 input then [] else [parenExpected])
           | _ => None
           end |}.

(** A nested compiler that throws on a syntax error. *)
Definition throwingCompiler (input : jsstring) (_ : TranspileOptions)
  : exn + TranspileOutput :=
  if balanced 0 input
  then inr {| outputText := input; diagnostics := None |}
  else inl (Thrown (lit "')' expected.")).

Definition nativeClassDecorator : Decorator :=
  mkDecorator [] (lit "@NativeClass").

(** [@NativeClass class A {}] *)
Definition classA : Node :=
  mkNode ClassDeclaration (Some [nativeClassDecorator]) []
         (lit "@NativeClass class A {}") [].

(** [class Bar {}] *)
Definition classBar : Node :=
  mkNode ClassDeclaration None [] (lit "class Bar {}") [].

(** [var x = 1;] *)
Definition varX : Node :=
  mkNode VariableStatement None [] (lit "var x = 1;")
         [mkNode Identifier None [] (lit "x") []].

(** [@NativeClass class Inner {}] inside a method of
    [@NativeClass class Outer]. *)
Definition classInner : Node :=
  mkNode ClassDeclaration (Some [nativeClassDecorator]) []
         (lit "@NativeClass class Inner {}") [].

Definition classOuter : Node :=
  mkNode ClassDeclaration (Some [nativeClassDecorator]) []
         (lit "@NativeClass class Outer { m() { @NativeClass class Inner {} } }")
         [mkNode MethodDeclaration None [] 
                 (lit "m() { @NativeClass class Inner {} }")
                 [mkNode Block None []
                         (lit "{ @NativeClass class Inner {} }")
                         [classInner]]].

(** [function f() { @NativeClass class A {} }] *)
Definition functionF : Node :=
  mkNode FunctionDeclaration None []
         (lit "function f() { @NativeClass class A {} }")
         [mkNode Block None [] (lit "{ @NativeClass class A {} }") [classA]].

Definition sourceFlat : SourceFile :=
  {| fileName := lit "flat.ts"; statements := [classA; classBar; varX] |}.

Definition sourceNested : SourceFile :=
  {| fileName := lit "nested.ts"; statements := [classOuter; functionF] |}.

Definition sourcePlain : SourceFile :=
  {| fileName := lit "plain.ts"; statements := [classBar; varX] |}.

(** A class expression that carries the marker:
    [var B = @NativeClass class {}]. *)
Definition classExpressionB : Node :=
  mkNode ClassExpression (Some [nativeClassDecorator]) [32%N]
         (lit "@NativeClass class {}") [].

(** A marked class whose method body spells the tag, behind a comment. *)
Definition classTagInBody : Node :=
  mkNode ClassDeclaration (Some [mkDecorator (lit "/* ios */ ")
                                             (lit "@NativeClass")])
         (lit "/* ios */ ")
         (lit "@NativeClass class A { m() { return '@NativeClass'; } }") [].





(** A marker whose argument list is not closed, in front of an exported
    class: [export] ends the argument list for the parser, which then
    builds the class declaration with the decorator. *)
Definition classFooUnterminated : Node :=
  mkNode ClassDeclaration
         (Some [mkDecorator [] (lit "@NativeClass(1, 2")]) []
         (lit "@NativeClass(1, 2" ++ [10%N] ++ lit "export class Foo {}") [].

Definition sourceUnterminated : SourceFile :=
  {| fileName := lit "foo.ts"; statements := [classFooUnterminated; varX] |}.

(** Emitted text with a property definition, an unrelated object literal
    and a call. *)
Definition emittedUnrelated : jsstring :=
  lit "Object.defineProperty(this, 'x', { value: 1 }); var c = { enumerable: false }; f({});".


End Samples.
Import Samples.

(** ** Further measures on texts and trees *)

(** [r] is [s] with some characters left out. *)
Inductive Subseq : jsstring -> jsstring -> Prop :=
| Subseq_nil : Subseq [] []
| Subseq_keep c r s : Subseq r s -> Subseq (c :: r) (c :: s)
| Subseq_drop c r s : Subseq r s -> Subseq r (c :: s).

(** The text starts with [enumerable:], white space and [false]. *)
Definition attributeAt (t : jsstring) : bool :=
  prefix (lit "enumerable:") t
  && prefix (lit "false")
            (dropWhile isWhiteSpace (skipn (length (lit "enumerable:")) t)).

(** The attribute stands somewhere in the text. *)
Fixpoint hasAttribute (s : jsstring) : bool :=
  attributeAt s
  || match s with
     | [] => false
     | _ :: s' => hasAttribute s'
     end.

(** A character the argument group of the marker pattern passes over:
    not [)] and matched by [.] or a line feed. *)
Definition plainChar (c : codeunit) : bool :=
  negb (N.eqb 41 c) && (negb (isLineTerminator c) || N.eqb 10 c).

(** The accepted class declarations of the subtree that do not lie inside
    another one, in document order: the nodes [visitNode] replaces. *)
Fixpoint outermost (n : Node) : list Node :=
  match n with
  | mkNode _ _ _ _ cs => if matched n then [n] else flat_map outermost cs
  end.

(** The call of the nested compiler [createHelper] makes for a node. *)
Definition callOf (n : Node) : TranspileCall :=
  mkCall (removeMarker (getText n)) transpileOptions.

(** The nested compiler returns an output for the node. *)
Definition compiles (tm : jsstring -> TranspileOptions -> exn + TranspileOutput)
           (n : Node) : Prop :=
  exists o, tm (removeMarker (getText n)) transpileOptions = inr o.

(** The first node of the list for which the nested compiler throws, with
    the nodes in front of it and the exception. *)
Fixpoint firstFail (tm : jsstring -> TranspileOptions -> exn + TranspileOutput)
         (l : list Node) : option (list Node * Node * exn) :=
  match l with
  | [] => None
  | n :: l' =>
      match tm (removeMarker (getText n)) transpileOptions with
      | inl e => Some ([], n, e)
      | inr _ =>
          match firstFail tm l' with
          | Some (p, f, e) => Some (n :: p, f, e)
          | None => None
          end
      end
  end.

(** What a visit does, read off the nodes it replaces: it returns a value
    after the calls for all of them, or throws the exception of the first
    one the nested compiler throws for, after the calls up to that one. *)
Definition runs_as (tm : jsstring -> TranspileOptions -> exn + TranspileOutput)
           {A} (c : M A) (l : list Node) : Prop :=
  match firstFail tm l with
  | None => exists a, c = (inr a, map callOf l)
  | Some (p, f, e) => c = (inl e, map callOf (p ++ [f]))
  end.

(** A text with several marker annotations: for each, the text in front of
    it and its argument list, if any; [post] is the text behind the last. *)
Definition Marker : Type := (jsstring * option jsstring)%type.

Fixpoint withMarkers (ms : list Marker) (post : jsstring) : jsstring :=
  match ms with
  | [] => post
  | (pre, args) :: ms' =>
      pre ++ tag ++ argumentList args ++ withMarkers ms' post
  end.

(** The same text without the annotations. *)
Fixpoint withoutMarkers (ms : list Marker) (post : jsstring) : jsstring :=
  match ms with
  | [] => post
  | (pre, _) :: ms' => pre ++ withoutMarkers ms' post
  end.

(** The tag occurs only in the annotations, and every argument list is one
    the pattern takes whole (see [plainArguments]). *)
Fixpoint markersPlain (ms : list Marker) (post : jsstring) : bool :=
  match ms with
  | [] => negb (occurs tag post)
  | (pre, args) :: ms' =>
      negb (occurs tag pre)
      && plainArguments args (withMarkers ms' post)
      && markersPlain ms' post
  end.

(** A property definition in emitted text: the text in front of the call,
    the arguments up to the options object, the options in front of the
    attribute, the white space inside the attribute and the options behind
    it. *)
Record PropertyCall : Type := mkPropertyCall {
  pc_before : jsstring;
  pc_arguments : jsstring;
  pc_options : jsstring;
  pc_space : jsstring;
  pc_rest : jsstring
}.

(** The emitted text of the calls, with the attribute set to [false]
    ([patched = false]) or rewritten to [enumerable: true]. *)
Fixpoint emittedCalls (patched : bool) (calls : list PropertyCall)
         (post : jsstring) : jsstring :=
  match calls with
  | [] => post
  | pc :: calls' =>
      pc_before pc ++ lit "Object.defineProperty(" ++ pc_arguments pc
                ++ [123%N] ++ pc_options pc
                ++ (if patched then lit "enumerable: true"
                    else lit "enumerable:" ++ pc_space pc ++ lit "false")
                ++ pc_rest pc ++ lit "})" ++ emittedCalls patched calls' post
  end.

(** The parts of the call do not hold what the pattern looks for next. *)
Definition callPlain (pc : PropertyCall) : bool :=
  negb (occurs (lit "Object.defineProperty(") (pc_before pc))
  && forallb (fun x => negb (N.eqb 123 x)) (pc_arguments pc)
  && negb (occurs (lit "enumerable:") (pc_options pc))
  && forallb isWhiteSpace (pc_space pc)
  && negb (occurs (lit "})") (pc_rest pc)).

(** ** The font cache

    Source: the iOS font module ([computeFontCacheKey], [getUIFontCached]).
    The native font objects and the functions of UIKit, CoreGraphics and
    CoreText are parameters; so are the conversion of a number to a string
    and [FontVariationSettings.toString], which the module imports. *)

Module FontCache.

(** A JavaScript [Map] with string keys: the entries in insertion order,
    one for each key.  The own properties of a plain object are kept the
    same way (see [object_set]). *)
Definition JsMap (V : Type) : Type := list (jsstring * V).

Fixpoint jsstring_eqb (a b : jsstring) : bool :=
  match a, b with
  | [], [] => true
  | x :: a', y :: b' => N.eqb x y && jsstring_eqb a' b'
  | _, _ => false
  end.

(** [map.get(key)]; [None] is [undefined]. *)
Fixpoint map_get {V} (key : jsstring) (mp : JsMap V) : option V :=
  match mp with
  | [] => None
  | (k, v) :: mp' => if jsstring_eqb key k then Some v else map_get key mp'
  end.

(** [map.has(key)]. *)
Fixpoint map_has {V} (key : jsstring) (mp : JsMap V) : bool :=
  match mp with
  | [] => false
  | (k, _) :: mp' => jsstring_eqb key k || map_has key mp'
  end.

(** [map.set(key, value)]: the value of a present key is replaced where it
    stands, a new key is added at the end. *)
Fixpoint map_set {V} (key : jsstring) (value : V) (mp : JsMap V) : JsMap V :=
  match mp with
  | [] => [(key, value)]
  | (k, v) :: mp' =>
      if jsstring_eqb key k then (k, value) :: mp'
      else (k, v) :: map_set key value mp'
  end.

(** [object[name] = value] on an object made by [{}], for a value that is
    not an object: an own property is set, but for the name [__proto__] the
    assignment reaches the setter inherited from [Object.prototype], which
    ignores such a value, and the object gets no property. *)
Definition object_set {V} (name : jsstring) (value : V) (obj : JsMap V)
  : JsMap V :=
  if jsstring_eqb name (lit "__proto__") then obj
  else map_set name value obj.

(** [map.size]. *)
Definition map_size {V} (mp : JsMap V) : nat := length mp.

(** [array.join(sep)] on an array of strings. *)
Fixpoint join (sep : jsstring) (parts : list jsstring) : jsstring :=
  match parts with
  | [] => []
  | [x] => x
  | x :: rest => x ++ sep ++ join sep rest
  end.

(** The string of a boolean. *)
Definition boolToString (b : bool) : jsstring :=
  if b then lit "true" else lit "false".

(** [/'/g] and [/[\s,]/g]. *)
Definition quote_re : regex := Char 39%N.
Definition separator_re : regex :=
  Class (fun c => isWhiteSpace c || N.eqb c 44).

(** [text.replace(/'/g, '').replace(/[\s,]/g, '_')] *)
Definition sanitize (text : jsstring) : jsstring :=
  replace_global separator_re [Text (lit "_")]
                 (replace_global quote_re [] text).

Section Fonts.

(** JavaScript numbers and the native objects. *)
Variables number UIFont CGFont Axis : Type.

Record FontVariationSettingsType : Type := mkVariation {
  axis : jsstring;
  value : number
}.

Record FontDescriptor : Type := mkFontDescriptor {
  fontFamily : list jsstring;
  fontSize : number;
  fontWeight : number;
  fontVariationSettings : option (list FontVariationSettingsType);
  isBold : bool;
  isItalic : bool
}.

(** The string of a number, and
    [String(FontVariationSettings.toString(settings))]. *)
Variable numberToString : number -> jsstring.
Variable settingsToString : option (list FontVariationSettingsType) -> jsstring.

Definition computeFontCacheKey (fontDescriptor : FontDescriptor) : jsstring :=
  let sep := lit ":" in
  join sep
       [join sep (fontFamily fontDescriptor);
        numberToString (fontSize fontDescriptor);
        numberToString (fontWeight fontDescriptor);
        sanitize (settingsToString (fontVariationSettings fontDescriptor));
        boolToString (isBold fontDescriptor);
        boolToString (isItalic fontDescriptor)].

(** The native functions. *)
Variable createUIFont : FontDescriptor -> UIFont.
Variable fontName : UIFont -> jsstring.
Variable CGFontCreateWithFontName : jsstring -> CGFont.
Variable CGFontCopyVariationAxes : CGFont -> list Axis.
Variable axisName : Axis -> jsstring.
Variable CGFontCreateCopyWithVariations : CGFont -> JsMap number -> CGFont.
Variable CTFontCreateWithGraphicsFont : CGFont -> number -> UIFont.

(** [fuzzySearch] of the common font module; [None] is [null]. *)
Variable fuzzySearch : jsstring -> list jsstring -> option (list jsstring).

(** What is written to the trace: the kind of message, the descriptor and
    the size of the cache the message prints. *)
Inductive TraceEvent : Type :=
| ReuseFromCache (fontDescriptor : FontDescriptor) (size : nat)
| Creation (fontDescriptor : FontDescriptor) (size : nat).

(** The state of the module: [uiFontCache] and the trace written so far;
    [traceEnabled] is [Trace.isEnabled()]. *)
Record FontState : Type := mkFontState {
  uiFontCache : JsMap UIFont;
  trace : list TraceEvent
}.

Variable traceEnabled : bool.

Definition traceWrite (ev : TraceEvent) (st : FontState) : FontState :=
  if traceEnabled
  then {| uiFontCache := uiFontCache st; trace := trace st ++ [ev] |}
  else st.

(** One turn of the loop over the variation settings of the descriptor. *)
Definition addVariation (variationAxesNames : list jsstring)
           (variationSettings : JsMap number)
           (variationSetting : FontVariationSettingsType) : JsMap number :=
  match fuzzySearch (axis variationSetting) variationAxesNames with
  | Some (name :: _) =>
      object_set name (value variationSetting) variationSettings
  | _ => variationSettings
  end.

(** The font with the variations of the descriptor applied. *)
Definition withVariations (fontDescriptor : FontDescriptor)
           (settings : list FontVariationSettingsType) (uiFont : UIFont)
  : UIFont :=
  let font := CGFontCreateWithFontName (fontName uiFont) in
  let variationAxes := CGFontCopyVariationAxes font in
  let variationAxesNames := map axisName variationAxes in
  let variationSettings :=
    fold_left (addVariation variationAxesNames) settings [] in
  let font := CGFontCreateCopyWithVariations font variationSettings in
  CTFontCreateWithGraphicsFont font (fontSize fontDescriptor).

(** [getUIFontCached]: the font and the state after the call; [None] is
    [undefined]. *)
Definition getUIFontCached (fontDescriptor : FontDescriptor) (st : FontState)
  : option UIFont * FontState :=
  let cacheKey := computeFontCacheKey fontDescriptor in
  if map_has cacheKey (uiFontCache st) then
    (map_get cacheKey (uiFontCache st),
     traceWrite (ReuseFromCache fontDescriptor (map_size (uiFontCache st))) st)
  else
    let uiFont := createUIFont fontDescriptor in
    let uiFont :=
      match fontVariationSettings fontDescriptor with
      | Some (v :: vs) => withVariations fontDescriptor (v :: vs) uiFont
      | _ => uiFont
      end in
    let st' := {| uiFontCache := map_set cacheKey uiFont (uiFontCache st);
                  trace := trace st |} in
    (Some uiFont,
     traceWrite (Creation fontDescriptor (map_size (uiFontCache st'))) st').

End Fonts.

End FontCache.

(** The axis name a variation setting resolves to, if any: the first
    result of [fuzzySearch]. *)
Definition resolvedAxis (fuzzySearch : jsstring -> list jsstring -> option (list jsstring))
           (names : list jsstring) (a : jsstring) : option jsstring :=
  match fuzzySearch a names with
  | Some (name :: _) => Some name
  | _ => None
  end.

(** The variation setting resolves to the axis [name]. *)
Definition resolvesTo {number : Type}
           (fuzzySearch : jsstring -> list jsstring -> option (list jsstring))
           (names : list jsstring) (name : jsstring)
           (v : FontCache.FontVariationSettingsType number) : bool :=
  match resolvedAxis fuzzySearch names (FontCache.axis v) with
  | Some n => FontCache.jsstring_eqb name n
  | None => false
  end.

(** A character [sanitize] lets through. *)
Definition keyChar (c : codeunit) : bool :=
  negb (N.eqb 39 c) && negb (isWhiteSpace c || N.eqb c 44).

(** ** Registering the fonts of a folder

    Source: the iOS font module ([ios.registerFont], [registerFontsInFolder],
    [registerCustomFonts]).  The file system and the native font functions
    are parameters. *)

Module FontRegistry.

Section Registry.

(** The contents of a file and a graphics font. *)
Variables Data CGFont : Type.

(** [fs.knownFolders.currentApp().path], [fs.path.join], [fs.File.exists],
    [fs.Folder.exists] and [NSFileManager.defaultManager.contentsAtPath]
    ([None] is [null]). *)
Variable appPath : jsstring.
Variable pathJoin : list jsstring -> jsstring.
Variable fileExists : jsstring -> bool.
Variable folderExists : jsstring -> bool.
Variable contentsAtPath : jsstring -> option Data.

(** [CGFontCreateWithDataProvider(CGDataProviderCreateWithCFData(data))];
    [None] is [null]. *)
Variable CGFontCreate : Data -> option CGFont.

(** [CTFontManagerRegisterGraphicsFont]: whether the font is accepted,
    given the fonts handed over before. *)
Variable CTFontManagerRegisterGraphicsFont : CGFont -> list CGFont -> bool.

Variable traceEnabled : bool.

(** An entity of a folder: its name, whether it is an [fs.File], and its
    extension. *)
Record Entity : Type := mkEntity {
  name : jsstring;
  isFile : bool;
  extension : jsstring
}.

(** The entities [fs.Folder.fromPath(path).eachEntity] enumerates. *)
Variable entitiesOf : jsstring -> list Entity.

(** The fonts handed to the font manager so far and the registration
    errors written to the trace. *)
Record RegistryState : Type := mkRegistryState {
  attempts : list CGFont;
  errorsTraced : list CGFont
}.

Definition R (A : Type) : Type :=
  RegistryState -> (exn + A) * RegistryState.

Definition rret {A} (a : A) : R A := fun st => (inr a, st).

Definition rbind {A B} (c : R A) (f : A -> R B) : R B :=
  fun st =>
    match c st with
    | (inl e, st') => (inl e, st')
    | (inr a, st') => f a st'
    end.

Definition couldNotLoad (fontFile : jsstring) : exn :=
  Thrown (lit "Could not load font from: " ++ fontFile).

Definition registerFont (fontFile : jsstring) : R unit :=
  fun st =>
    let filePath := pathJoin [appPath; lit "fonts"; fontFile] in
    let filePath :=
      if negb (fileExists filePath) then pathJoin [appPath; fontFile]
      else filePath in
    match contentsAtPath filePath with
    | None => (inl (couldNotLoad fontFile), st)
    | Some fontData =>
        match CGFontCreate fontData with
        | None => (inl (couldNotLoad fontFile), st)
        | Some font =>
            let ok := CTFontManagerRegisterGraphicsFont font (attempts st) in
            (inr tt,
             {| attempts := attempts st ++ [font];
                errorsTraced :=
                  if negb ok && traceEnabled then errorsTraced st ++ [font]
                  else errorsTraced st |})
        end
    end.

(** [folder.eachEntity(onEntity)]: the enumeration stops when the callback
    returns [false]. *)
Fixpoint eachEntity (entities : list Entity) (onEntity : Entity -> R bool)
  : R unit :=
  match entities with
  | [] => rret tt
  | e :: rest =>
      rbind (onEntity e)
            (fun goOn => if goOn then eachEntity rest onEntity else rret tt)
  end.

(** The callback [registerFontsInFolder] hands to [eachEntity]. *)
Definition onFontEntity (fontsFolderPath : jsstring) (fileEntity : Entity)
  : R bool :=
  if folderExists (pathJoin [fontsFolderPath; name fileEntity])
  then rret true
  else
    rbind (if isFile fileEntity
              && (FontCache.jsstring_eqb (extension fileEntity) (lit ".ttf")
                  || FontCache.jsstring_eqb (extension fileEntity)
                                            (lit ".otf"))
           then registerFont (name fileEntity)
           else rret tt)
          (fun _ => rret true).

Definition registerFontsInFolder (fontsFolderPath : jsstring) : R unit :=
  eachEntity (entitiesOf fontsFolderPath) (onFontEntity fontsFolderPath).

Definition registerCustomFonts : R unit :=
  let appDir := appPath in
  let fontsDir := pathJoin [appDir; lit "fonts"] in
  if folderExists fontsDir then registerFontsInFolder fontsDir
  else rret tt.

(** The font [registerFont] makes from a file name, or the exception it
    throws. *)
Definition loadFont (fontFile : jsstring) : exn + CGFont :=
  let inFonts := pathJoin [appPath; lit "fonts"; fontFile] in
  let filePath :=
    if fileExists inFonts then inFonts else pathJoin [appPath; fontFile] in
  match contentsAtPath filePath with
  | None => inl (couldNotLoad fontFile)
  | Some fontData =>
      match CGFontCreate fontData with
      | None => inl (couldNotLoad fontFile)
      | Some font => inr font
      end
  end.

(** The entities of a folder [registerFontsInFolder] registers: files with
    extension [.ttf] or [.otf] whose path is not a folder. *)
Definition isFontFile (fontsFolderPath : jsstring) (e : Entity) : bool :=
  negb (folderExists (pathJoin [fontsFolderPath; name e]))
  && isFile e
  && (FontCache.jsstring_eqb (extension e) (lit ".ttf")
      || FontCache.jsstring_eqb (extension e) (lit ".otf")).

(** The fonts of the entities that load. *)
Definition loaded (es : list Entity) : list CGFont :=
  flat_map (fun e => match loadFont (name e) with
                     | inr font => [font]
                     | inl _ => []
                     end) es.

Definition loads (e : Entity) : Prop :=
  exists font, loadFont (name e) = inr font.

End Registry.

End FontRegistry.

(** ** Sample inputs for the font cache *)

Module FontSamples.

Import FontCache.

(** Numbers are natural numbers here, printed in decimal; a font is its
    name and size, a graphics font its name and variations, an axis its
    name. *)
Definition sampleNumberToString (n : N) : jsstring :=
  lit (DecimalString.NilEmpty.string_of_uint (N.to_uint n)).

Definition sampleSettingsToString
           (o : option (list (FontVariationSettingsType N))) : jsstring :=
  match o with
  | None => lit "null"
  | Some l =>
      join (lit ", ")
           (map (fun v => lit "'" ++ axis v ++ lit "' "
                              ++ sampleNumberToString (value v)) l)
  end.

Definition sampleCreateUIFont (fd : FontDescriptor N) : jsstring * N :=
  (join (lit ",") (fontFamily fd), fontSize fd).

Definition sampleAxes (font : jsstring * JsMap N) : list jsstring :=
  [lit "Weight"; lit "Width"].

(** A search that finds the axis whose name starts with the letters asked
    for, in either case of the first letter. *)
Definition sampleFuzzySearch (a : jsstring) (names : list jsstring)
  : option (list jsstring) :=
  match filter (fun n => match a, n with
                         | x :: _, y :: _ => N.eqb x y || N.eqb (x - 32) y
                         | _, _ => false
                         end) names with
  | [] => None
  | l => Some l
  end.

Definition sampleCached :=
  getUIFontCached sampleNumberToString sampleSettingsToString
                  sampleCreateUIFont (@fst jsstring N)
                  (fun name => (name, @nil (jsstring * N)))
                  sampleAxes (fun a : jsstring => a)
                  (fun (font : jsstring * JsMap N) vars => (fst font, vars))
                  (fun (font : jsstring * JsMap N) size => (fst font, size))
                  sampleFuzzySearch true.

Definition sampleKey :=
  computeFontCacheKey sampleNumberToString sampleSettingsToString.

Definition helvetica : FontDescriptor N :=
  {| fontFamily := [lit "Helvetica"]; fontSize := 12%N; fontWeight := 400%N;
     fontVariationSettings := None; isBold := false; isItalic := false |}.

Definition inter : FontDescriptor N :=
  {| fontFamily := [lit "Inter"; lit "Arial"]; fontSize := 14%N;
     fontWeight := 700%N;
     fontVariationSettings :=
       Some [mkVariation (lit "wght") 300%N; mkVariation (lit "slnt") 5%N;
             mkVariation (lit "weight") 650%N];
     isBold := true; isItalic := false |}.

Definition emptyFonts : FontState N (jsstring * N) :=
  {| uiFontCache := []; trace := [] |}.

Definition oneFont : FontState N (jsstring * N) :=
  snd (sampleCached helvetica emptyFonts).

End FontSamples.
Import FontSamples.

(** ** Sample inputs for the run of the traversal *)

(** The marker with an argument list broken by a carriage return. *)
Definition textCarriageReturn : jsstring :=
  tag ++ [40%N] ++ lit "'Foo'," ++ [13%N] ++ [10%N; 41%N]
      ++ lit " class Foo {}".

(** Emitted text of a class with one method. *)
Definition emittedPlain : jsstring :=
  lit "var A = (function () { function A() { } A.prototype.m = function () { return { enumerable: true }; }; return A; }());".

Definition sourceTwoFailures : SourceFile :=
  {| fileName := lit "two.ts";
     statements := [functionF; classFooUnterminated; classA;
                    classFooUnterminated] |}.

Definition outNested : SourceFile :=
  Eval vm_compute in
    match value (transform echoCompiler sourceNested) with
    | inr out => out
    | inl _ => sourceNested
    end.

(** ** Sample inputs for the registration of fonts *)

Module RegistrySamples.

Import FontRegistry.

Definition samplePathJoin (parts : list jsstring) : jsstring :=
  FontCache.join (lit "/") parts.

Definition sampleFolderExists (p : jsstring) : bool :=
  FontCache.jsstring_eqb p (lit "/app/fonts")
  || FontCache.jsstring_eqb p (lit "/app/fonts/thin").

(** Every file has contents but [broken.otf]. *)
Definition sampleContents (p : jsstring) : option jsstring :=
  if occurs (lit "broken.otf") p then None else Some p.

Definition sampleEntities (p : jsstring) : list Entity :=
  if FontCache.jsstring_eqb p (lit "/app/fonts")
  then [mkEntity (lit "a.ttf") true (lit ".ttf");
        mkEntity (lit "thin") false [];
        mkEntity (lit "notes.txt") true (lit ".txt");
        mkEntity (lit "broken.otf") true (lit ".otf");
        mkEntity (lit "b.ttf") true (lit ".ttf")]
  else [mkEntity (lit "c.otf") true (lit ".otf");
        mkEntity (lit "C.TTF") true (lit ".TTF")].

Definition sampleInFolder :=
  registerFontsInFolder (lit "/app") samplePathJoin (fun _ => true)
                        sampleFolderExists sampleContents
                        (fun data : jsstring => Some data)
                        (fun _ _ => true) false sampleEntities.

Definition sampleIsFontFile := isFontFile samplePathJoin sampleFolderExists.

Definition sampleLoads :=
  loads (lit "/app") samplePathJoin (fun _ => true) sampleContents
        (fun data : jsstring => Some data).

Definition noFonts : RegistryState jsstring :=
  {| attempts := []; errorsTraced := [] |}.

End RegistrySamples.
Import RegistrySamples.

(** ** Sample texts with several matches *)

Definition twoMarkers : list Marker :=
  [([], Some []); (lit " class Outer { m() { ", None)].

Definition twoAccessors : list PropertyCall :=
  [mkPropertyCall [] (lit "A.prototype, 'x', ")
                  (lit " get: function () { return 1; }, ") [32%N]
                  (lit ", configurable: true ");
   mkPropertyCall (lit "; ") (lit "A.prototype, 'y', ")
                  ([10%N] ++ lit " get: function () { return 2; },"
                          ++ [10%N; 32%N])
                  [] (lit ", configurable: true" ++ [10%N])].

(** * Properties *)

(** One step of the matcher on the head constructor of the pattern. *)
Ltac m_seq :=
  change (m (Seq ?a ?b) ?s ?cs ?k)
    with (m a s cs (fun s' cs' => m b s' cs' k)).
Ltac m_group :=
  change (m (Group ?i ?a) ?s ?cs ?k)
    with (m a s cs
            (fun s' cs' =>
               k s' ((i, firstn (length s - length s') s) :: cs'))).
Ltac m_opt :=
  change (m (Opt true ?a) ?s ?cs ?k)
    with (orelse (m a s cs
                    (fun s' cs' =>
                       if Nat.ltb (length s') (length s) then k s' cs'
                       else None))
                 (k s cs)).
Ltac m_star :=
  change (m (Star ?g ?a) ?s ?cs ?k)
    with (star_loop (m a) g k (length s) s cs).
Ltac m_char :=
  change (m (Char ?x) (?c :: ?s) ?cs ?k)
    with (if N.eqb x c then k s cs else None).

(** ** Strings *)

Section StringFacts.

Lemma prefix_app (p s : jsstring) : prefix p (p ++ s) = true.
Proof.
  induction p as [|a p IH]; simpl; [reflexivity|].
  now rewrite N.eqb_refl, IH.
Qed.

Lemma prefix_split (p s : jsstring) :
  prefix p s = true -> s = p ++ skipn (length p) s.
Proof.
  revert s; induction p as [|a p IH]; intros [|b s] H; simpl in *;
    try reflexivity; try discriminate.
  apply andb_true_iff in H as [Hab Hp].
  apply N.eqb_eq in Hab; subst b.
  f_equal; now apply IH.
Qed.

Lemma prefix_iff (p s : jsstring) :
  prefix p s = true <-> exists r, s = p ++ r.
Proof.
  split.
  - intros H; eexists; now apply prefix_split.
  - intros [r ->]; apply prefix_app.
Qed.

Lemma prefix_nil_r (p : jsstring) : prefix p [] = true -> p = [].
Proof. destruct p; simpl; [reflexivity | discriminate]. Qed.

Lemma prefix_occurs (pat s : jsstring) :
  prefix pat s = true -> occurs pat s = true.
Proof. intros H; destruct s; simpl in *; now rewrite H. Qed.

Lemma occurs_iff (pat s : jsstring) :
  occurs pat s = true <-> exists a b, s = a ++ pat ++ b.
Proof.
  split.
  - induction s as [|c s IH]; simpl; intros H.
    + rewrite orb_false_r in H; apply prefix_nil_r in H; subst pat.
      now exists [], [].
    + apply orb_true_iff in H as [H|H].
      * apply prefix_iff in H as [r Hr]; exists [], r; exact Hr.
      * destruct (IH H) as (a & b & ->); now exists (c :: a), b.
  - intros (a & b & ->).
    induction a as [|c a IH].
    + cbn [app]; apply prefix_occurs, prefix_app.
    + simpl in *; rewrite IH; apply orb_true_r.
Qed.

Lemma occurs_cons_false (pat : jsstring) c s :
  occurs pat (c :: s) = false ->
  prefix pat (c :: s) = false /\ occurs pat s = false.
Proof. simpl; intros H; now apply orb_false_iff in H. Qed.

Lemma occurs_prefix_false (pat s : jsstring) :
  occurs pat s = false -> prefix pat s = false.
Proof.
  destruct s; simpl; intros H; apply orb_false_iff in H; tauto.
Qed.


Lemma occurs_app_false_r (pat a b : jsstring) :
  occurs pat (a ++ b) = false -> occurs pat b = false.
Proof.
  intros H; destruct (occurs pat b) eqn:E; [|reflexivity].
  apply occurs_iff in E as (x & y & ->).
  rewrite <- H; symmetry; apply occurs_iff.
  exists (a ++ x), y; now rewrite <- !app_assoc.
Qed.

(** [indexOf] and [occurs] agree. *)
Lemma indexOf_from_occurs (pat s : jsstring) (i : Z) :
  (0 <= i)%Z -> (indexOf_from pat s i >? -1)%Z = occurs pat s.
Proof.
  revert i; induction s as [|c s IH]; intros i Hi; simpl.
  - destruct (prefix pat []); simpl; [|reflexivity].
    apply Z.gtb_lt; lia.
  - destruct (prefix pat (c :: s)); simpl.
    + apply Z.gtb_lt; lia.
    + apply IH; lia.
Qed.

Lemma indexOf_occurs (s pat : jsstring) :
  (indexOf s pat >? -1)%Z = occurs pat s.
Proof. apply indexOf_from_occurs; lia. Qed.

(** A border, spelled out. *)
Lemma borderless_no_border (pat x y : jsstring) :
  borderless pat = true ->
  pat = x ++ y -> x <> [] -> y <> [] -> prefix y pat = false.
Proof.
  unfold borderless; intros HB -> Hx Hy.
  rewrite forallb_forall in HB.
  specialize (HB (length x)).
  rewrite skipn_app, skipn_all, Nat.sub_diag in HB; simpl in HB.
  apply negb_true_iff, HB, in_seq.
  rewrite length_app.
  destruct x; [congruence|]; destruct y; [congruence|]; simpl; lia.
Qed.

(** With a borderless pattern that does not occur in [pre], no occurrence
    starts inside [pre] when the pattern follows it. *)
Lemma no_occurrence_before (pat pre rest : jsstring) :
  borderless pat = true ->
  occurs pat pre = false ->
  forall a b, pre = a ++ b -> b <> [] ->
              prefix pat (b ++ pat ++ rest) = false.
Proof.
  intros HB Hocc a b -> Hb.
  destruct (prefix pat (b ++ pat ++ rest)) eqn:E; [|reflexivity].
  exfalso.
  apply prefix_iff in E as [r Hr].
  apply app_eq_app in Hr as [l [[H1 H2]|[H1 H2]]].
  - (* the pattern ends inside [b]: b = pat ++ l *)
    apply occurs_app_false_r in Hocc.
    assert (occurs pat b = true) as Ht
        by (apply occurs_iff; exists [], l; exact H1).
    congruence.
  - (* pat = b ++ l and pat ++ rest = l ++ r *)
    destruct l as [|z l].
    + rewrite app_nil_r in H1; subst b.
      apply occurs_app_false_r in Hocc.
      assert (occurs pat pat = true) as Ht
          by (apply occurs_iff; exists [], []; now rewrite app_nil_r).
      congruence.
    + assert (prefix (z :: l) pat = true) as Hp.
      { assert (length (z :: l) <= length pat) as Hlen
            by (rewrite H1, length_app; lia).
        apply prefix_iff.
        exists (skipn (length (z :: l)) pat).
        rewrite <- (firstn_skipn (length (z :: l)) pat) at 1.
        f_equal.
        assert (firstn (length (z :: l)) (pat ++ rest)
                = firstn (length (z :: l)) ((z :: l) ++ r)) as Hf
            by now rewrite H2.
        rewrite firstn_app in Hf.
        replace (length (z :: l) - length pat) with 0 in Hf by lia.
        rewrite firstn_O, app_nil_r in Hf.
        rewrite Hf, firstn_app, Nat.sub_diag, firstn_all, firstn_O.
        now rewrite app_nil_r. }
      rewrite (borderless_no_border (x := b) (y := z :: l) HB H1 Hb) in Hp;
        [discriminate | discriminate].
Qed.

End StringFacts.

(** ** [trim] and substring search *)

Section TrimFacts.

Lemma occurs_rev (pat s : jsstring) :
  occurs (rev pat) (rev s) = occurs pat s.
Proof.
  apply eq_true_iff_eq; rewrite !occurs_iff; split.
  - intros (a & b & H).
    exists (rev b), (rev a).
    apply (f_equal (@rev _)) in H.
    rewrite rev_involutive, !rev_app_distr, rev_involutive in H.
    now rewrite H, app_assoc.
  - intros (a & b & ->).
    exists (rev b), (rev a).
    now rewrite !rev_app_distr, app_assoc.
Qed.

(** Dropping a run of characters the pattern does not start with neither
    creates nor destroys an occurrence. *)
Lemma occurs_dropWhile (p : codeunit -> bool) h pt (s : jsstring) :
  p h = false ->
  occurs (h :: pt) (dropWhile p s) = occurs (h :: pt) s.
Proof.
  intros Hh; induction s as [|c s IH]; [reflexivity|].
  cbn [dropWhile]; destruct (p c) eqn:Hc; [|reflexivity].
  rewrite IH; cbn [occurs prefix].
  destruct (N.eqb_spec h c) as [->|_]; [congruence|reflexivity].
Qed.

Lemma occurs_trim h pt z pz (s : jsstring) :
  rev (h :: pt) = z :: pz ->
  isWhiteSpace h = false -> isWhiteSpace z = false ->
  occurs (h :: pt) (trim s) = occurs (h :: pt) s.
Proof.
  intros Hrev Hh Hz; unfold trim, trimEnd, trimStart.
  rewrite <- occurs_rev, rev_involutive, Hrev, occurs_dropWhile by exact Hz.
  rewrite <- Hrev, occurs_rev.
  now apply occurs_dropWhile.
Qed.

Lemma occurs_tag_trim (s : jsstring) : occurs tag (trim s) = occurs tag s.
Proof.
  unfold tag.
  apply (@occurs_trim 64%N (lit "NativeClass") 115%N
                      (rev (lit "@NativeClas"))); reflexivity.
Qed.

Lemma hasTag_occurs (d : Decorator) :
  hasTag d = occurs tag (dec_getFullText d).
Proof. unfold hasTag; now rewrite indexOf_occurs, occurs_tag_trim. Qed.

Lemma filter_nonempty {A} (f : A -> bool) (l : list A) :
  (0 <? length (filter f l)) = true <-> exists x, In x l /\ f x = true.
Proof.
  rewrite Nat.ltb_lt; split.
  - intros H; destruct (filter f l) as [|x r] eqn:E; [simpl in H; lia|].
    exists x; apply filter_In; rewrite E; now left.
  - intros (x & Hx & Hf).
    assert (In x (filter f l)) as Hin by (apply filter_In; now split).
    destruct (filter f l); [contradiction | simpl; lia].
Qed.

End TrimFacts.

(** ** The marker detector *)

Lemma hasTag_iff (d : Decorator) :
  hasTag d = true <-> exists a b, dec_getFullText d = a ++ tag ++ b.
Proof. rewrite hasTag_occurs; apply occurs_iff. Qed.

Lemma filter_empty {A} (f : A -> bool) (l : list A) :
  (0 <? length (filter f l)) = false <-> forall x, In x l -> f x = false.
Proof.
  split.
  - intros H x Hx; destruct (f x) eqn:E; [|reflexivity].
    rewrite <- H; symmetry; apply filter_nonempty; now exists x.
  - intros H; destruct (0 <? length (filter f l)) eqn:E; [|reflexivity].
    apply filter_nonempty in E as (x & Hx & Hf).
    rewrite (H x Hx) in Hf; discriminate.
Qed.

(** C5 (amended).  [isNativeClassExtension] returns [true] exactly when the
    capability check [ts.canHaveDecorators] passes and [ts.getDecorators]
    yields a list with at least one decorator whose full source text
    (leading trivia included) contains ['@NativeClass'] as a substring.  It
    is a pure, total function, so it has no effect and cannot throw.  In
    every other case its value is falsy: it is [undefined] exactly when the
    capability check passes and [ts.getDecorators] yields [undefined], the
    case of a declaration without decorators, and it is [false] exactly
    when the capability check fails or the decorators are a list none of
    which contains the tag. *)
Theorem isNativeClassExtension_spec (node : Node) :
  (isNativeClassExtension node = JBool true <->
   canHaveDecorators node = true /\
   exists ds, getDecorators node = Some ds /\
   exists d, In d ds /\
   exists a b, dec_getFullText d = a ++ tag ++ b)
  /\ (isNativeClassExtension node = JUndefined <->
      canHaveDecorators node = true /\ getDecorators node = None)
  /\ (isNativeClassExtension node = JBool false <->
      canHaveDecorators node = false \/
      exists ds, getDecorators node = Some ds /\
      forall d a b, In d ds -> dec_getFullText d <> a ++ tag ++ b)
  /\ (getDecorators node = None \/ getDecorators node = Some [] ->
      truthy (isNativeClassExtension node) = false).
Proof.
  unfold isNativeClassExtension.
  destruct (canHaveDecorators node) eqn:Hc;
    destruct (getDecorators node) as [ds|] eqn:Hds.
  - (* the capability check passes, a list of decorators *)
    split; [|split; [|split]].
    + split.
      * intros [= H]; apply filter_nonempty in H as (d & Hd & Ht).
        split; [reflexivity|]; exists ds; split; [reflexivity|].
        exists d; split; [exact Hd | now apply hasTag_iff].
      * intros (_ & ds' & [= <-] & d & Hd & Ht); f_equal.
        apply filter_nonempty; exists d; split;
          [exact Hd | now apply hasTag_iff].
    + split; [discriminate | intros [_ H]; discriminate].
    + split.
      * intros [= H]; right; exists ds; split; [reflexivity|].
        intros d a b Hd Ht.
        rewrite filter_empty in H.
        assert (hasTag d = true) as Hd' by (apply hasTag_iff; eauto).
        rewrite (H d Hd) in Hd'; discriminate.
      * intros [H|(ds' & [= <-] & H)]; [discriminate|]; f_equal.
        apply filter_empty; intros d Hd.
        destruct (hasTag d) eqn:E; [|reflexivity].
        apply hasTag_iff in E as (a & b & E); now destruct (H d a b Hd).
    + intros [H|[= ->]]; [discriminate | reflexivity].
  - (* the capability check passes, no decorators *)
    split; [|split; [|split]].
    + split; [discriminate | intros (_ & ds & H & _); discriminate].
    + now split.
    + split; [discriminate|].
      intros [H|(ds & H & _)]; discriminate.
    + reflexivity.
  - (* the capability check fails *)
    split; [|split; [|split]].
    + split; [discriminate | intros (H & _); discriminate].
    + split; [discriminate | intros (H & _); discriminate].
    + split; [now left | reflexivity].
    + reflexivity.
  - split; [|split; [|split]].
    + split; [discriminate | intros (H & _); discriminate].
    + split; [discriminate | intros (H & _); discriminate].
    + split; [now left | reflexivity].
    + reflexivity.
Qed.

(** ** The matcher *)

Section MatcherFacts.

Lemma orelse_None_r (a : option result) : orelse a None = a.
Proof. now destruct a. Qed.

(** A literal matches exactly when it is a prefix of the input. *)
Lemma m_Lit (l s : jsstring) (cs : captures) (k : cont) :
  m (Lit l) s cs k = if prefix l s then k (skipn (length l) s) cs else None.
Proof.
  revert s; induction l as [|a l IH]; intros s; [reflexivity|].
  destruct s as [|b s]; [reflexivity|].
  cbn [Lit m Char prefix length skipn].
  destruct (N.eqb a b); [apply IH | reflexivity].
Qed.

Lemma m_Lit_app (l s : jsstring) (cs : captures) (k : cont) :
  m (Lit l) (l ++ s) cs k = k s cs.
Proof.
  rewrite m_Lit, prefix_app, skipn_app, skipn_all, Nat.sub_diag.
  reflexivity.
Qed.

(** A lazy repetition of a character class stops at the first position
    where the rest of the pattern succeeds. *)
Lemma lazy_class_first (p : codeunit -> bool) (k : cont)
      (a y : jsstring) (cs : captures) (x : result) :
  forallb p a = true ->
  (forall a1 a2, a = a1 ++ a2 -> a2 <> [] -> k (a2 ++ y) cs = None) ->
  k y cs = Some x ->
  forall n, length (a ++ y) <= n ->
            star_loop (m (Class p)) false k n (a ++ y) cs = Some x.
Proof.
  intros Hp Hfail Hy.
  induction a as [|c a IH]; intros n Hn.
  - destruct n; cbn [app star_loop]; now rewrite Hy.
  - destruct n as [|n]; [simpl in Hn; lia|].
    assert (k (c :: a ++ y) cs = None) as H0
        by (apply (Hfail [] (c :: a)); [reflexivity | discriminate]).
    cbn [app star_loop]; rewrite H0.
    cbn [orelse m].
    simpl in Hp; apply andb_true_iff in Hp as [Hc Ha]; rewrite Hc.
    replace (length (a ++ y) <? length (c :: a ++ y)) with true
      by (symmetry; apply Nat.ltb_lt; simpl; lia).
    apply IH; [exact Ha | | simpl in Hn; lia].
    intros a1 a2 -> Ha2; now apply (Hfail (c :: a1) a2).
Qed.

(** A greedy repetition of a character class takes the whole run, up to a
    character outside the class, when the rest of the pattern succeeds
    there. *)
Lemma greedy_class_all (p : codeunit -> bool) (k : cont)
      (w y : jsstring) (cs : captures) (x : result) :
  forallb p w = true ->
  match y with c :: _ => p c = false | [] => True end ->
  k y cs = Some x ->
  forall n, length (w ++ y) <= n ->
            star_loop (m (Class p)) true k n (w ++ y) cs = Some x.
Proof.
  intros Hp Hhd Hy.
  induction w as [|c w IH]; intros n Hn.
  - destruct n; cbn [app star_loop]; [exact Hy|].
    rewrite Hy; destruct y as [|c y]; cbn [m]; [reflexivity|].
    now rewrite Hhd.
  - destruct n as [|n]; [simpl in Hn; lia|].
    cbn [app star_loop m].
    simpl in Hp; apply andb_true_iff in Hp as [Hc Hw]; rewrite Hc.
    replace (length (w ++ y) <? length (c :: w ++ y)) with true
      by (symmetry; apply Nat.ltb_lt; simpl; lia).
    rewrite IH; [reflexivity | exact Hw | simpl in Hn; lia].
Qed.

(** The text a group records. *)
Lemma firstn_consumed (x y : jsstring) :
  firstn (length (x ++ y) - length y) (x ++ y) = x.
Proof.
  rewrite length_app, Nat.add_sub, firstn_app, Nat.sub_diag, firstn_all.
  apply app_nil_r.
Qed.

End MatcherFacts.

(** ** Global replacement *)

Section ReplaceFacts.

Variable r : regex.
Variable t : template.

(** Characters inside a match are passed over. *)
Lemma replace_go_skip (x rest : jsstring) :
  replace_go r t (length x) (x ++ rest) = replace_go r t 0 rest.
Proof.
  induction x as [|c x IH]; [reflexivity|].
  cbn [length app replace_go]; exact IH.
Qed.

(** Text in front of the first match is copied. *)
Lemma replace_go_copy (pre rest : jsstring) :
  (forall a b, pre = a ++ b -> b <> [] -> exec r (b ++ rest) = None) ->
  replace_go r t 0 (pre ++ rest) = pre ++ replace_go r t 0 rest.
Proof.
  induction pre as [|c pre IH]; intros H; [reflexivity|].
  assert (exec r (c :: pre ++ rest) = None) as H0
      by (apply (H [] (c :: pre)); [reflexivity | discriminate]).
  cbn [app replace_go]; rewrite H0.
  f_equal; apply IH.
  intros a b -> Hb; now apply (H (c :: a) b).
Qed.

(** A non-empty match is replaced by the expanded template and scanning
    resumes behind it. *)
Lemma replace_go_match (mt rest : jsstring) (cs : captures) :
  mt <> [] ->
  exec r (mt ++ rest) = Some (rest, cs) ->
  replace_go r t 0 (mt ++ rest) = expand t cs ++ replace_go r t 0 rest.
Proof.
  intros Hm He.
  destruct mt as [|c mt]; [congruence|].
  cbn [app replace_go].
  change (c :: mt ++ rest) with ((c :: mt) ++ rest); rewrite He.
  rewrite length_app, Nat.add_sub; cbn [length].
  f_equal; apply replace_go_skip.
Qed.

(** Where the pattern matches nowhere the text is returned as it is. *)
Lemma replace_go_id (s : jsstring) :
  (forall a b, s = a ++ b -> exec r b = None) ->
  replace_go r t 0 s = s.
Proof.
  intros H.
  rewrite <- (app_nil_r s) at 1.
  rewrite replace_go_copy.
  - cbn [replace_go]; rewrite (H s []) by (now rewrite app_nil_r).
    apply app_nil_r.
  - intros a b -> _; rewrite app_nil_r; now apply (H a b).
Qed.

End ReplaceFacts.

(** ** The marker pattern *)

Section MarkerFacts.

Lemma fst_orelse (a b : option result) :
  option_map fst (orelse a b)
  = match option_map fst a with
    | Some x => Some x
    | None => option_map fst b
    end.
Proof. now destruct a. Qed.

Lemma closeParen_shorter (s r : jsstring) :
  closeParen s = Some r -> length r < length s.
Proof.
  revert r; induction s as [|c s IH]; intros r; cbn [closeParen];
    [discriminate|].
  destruct (N.eqb 41 c).
  - intros [= ->]; simpl; lia.
  - destruct (negb (isLineTerminator c) || N.eqb 10 c); [|discriminate].
    intros H; apply IH in H; simpl; lia.
Qed.

Lemma closeParen_suffix (s r : jsstring) :
  closeParen s = Some r -> exists x, s = x ++ r.
Proof.
  revert r; induction s as [|c s IH]; intros r; cbn [closeParen];
    [discriminate|].
  destruct (N.eqb 41 c).
  - intros [= ->]; now exists [c].
  - destruct (negb (isLineTerminator c) || N.eqb 10 c); [|discriminate].
    intros H; destruct (IH _ H) as [x ->]; now exists (c :: x).
Qed.

(** The lazy repetition of [(.|\n)] followed by [\)]. *)
Lemma lazy_args_loop (k : cont) (bound : nat) :
  (forall s' cs', length s' < bound -> option_map fst (k s' cs') = Some s') ->
  forall n s cs,
    length s <= n -> length s <= bound ->
    option_map fst
      (star_loop (m (Group 2 (Alt Dot (Char 10%N)))) false
                 (fun s' cs' => m (Char 41%N) s' cs' k) n s cs)
    = closeParen s.
Proof.
  intros Hk; induction n as [|n IH]; intros s cs Hn Hb.
  - destruct s; [reflexivity | simpl in Hn; lia].
  - destruct s as [|c s]; [reflexivity|].
    cbn [star_loop closeParen].
    rewrite fst_orelse.
    cbn [m Char Dot].
    destruct (N.eqb 41 c) eqn:E41.
    + rewrite Hk by (simpl in Hb; lia); reflexivity.
    + cbn [option_map].
      replace (length s <? length (c :: s)) with true
        by (symmetry; apply Nat.ltb_lt; simpl; lia).
      rewrite fst_orelse.
      destruct (negb (isLineTerminator c)) eqn:Edot; cbn [orb].
      * rewrite IH by (simpl in Hn, Hb; lia).
        destruct (closeParen s); [reflexivity|].
        destruct (N.eqb_spec 10 c) as [<-|_]; [discriminate|reflexivity].
      * cbn [option_map].
        destruct (N.eqb 10 c); [|reflexivity].
        apply IH; simpl in Hn, Hb; lia.
Qed.

Lemma exec_marker_none (s : jsstring) :
  prefix tag s = false -> exec marker_re s = None.
Proof.
  intros H; unfold exec, marker_re; cbn [m].
  now rewrite m_Lit, H.
Qed.

Lemma exec_marker_some (rest : jsstring) :
  option_map fst (exec marker_re (tag ++ rest)) = Some (afterMarker rest).
Proof.
  unfold exec, marker_re.
  m_seq; rewrite m_Lit_app.
  m_opt; rewrite fst_orelse.
  m_group; m_seq.
  destruct rest as [|c s]; [reflexivity|].
  m_char; cbn [afterMarker].
  destruct (N.eqb 40 c); [|reflexivity].
  m_seq; m_star.
  rewrite (@lazy_args_loop _ (length s)).
  - destruct (closeParen s); reflexivity.
  - intros s' cs' Hlt.
    replace (length s' <? length (c :: s)) with true
      by (symmetry; apply Nat.ltb_lt; simpl; lia).
    reflexivity.
  - lia.
  - lia.
Qed.

Lemma afterMarker_suffix (rest : jsstring) :
  exists x, rest = x ++ afterMarker rest.
Proof.
  destruct rest as [|c s]; [now exists []|].
  cbn [afterMarker].
  destruct (N.eqb 40 c); [|now exists []].
  destruct (closeParen s) as [r|] eqn:E; [|now exists []].
  destruct (closeParen_suffix _ E) as [x ->]; now exists (c :: x).
Qed.

Lemma borderless_tag : borderless tag = true.
Proof. reflexivity. Qed.

(** Text without the tag is left as it is. *)
Lemma removeMarker_id (s : jsstring) :
  occurs tag s = false -> removeMarker s = s.
Proof.
  intros H; apply replace_go_id.
  intros a b ->; apply exec_marker_none, occurs_prefix_false.
  now apply occurs_app_false_r in H.
Qed.

(** The first occurrence of the tag is removed with what the optional group
    matches behind it, and the replacement goes on behind that. *)
Lemma removeMarker_first (pre rest : jsstring) :
  occurs tag pre = false ->
  removeMarker (pre ++ tag ++ rest) = pre ++ removeMarker (afterMarker rest).
Proof.
  intros H; unfold removeMarker, replace_global.
  rewrite replace_go_copy.
  - f_equal.
    destruct (afterMarker_suffix rest) as [x Hx].
    destruct (exec marker_re (tag ++ rest)) as [[r cs]|] eqn:E;
      pose proof (exec_marker_some rest) as Hs; rewrite E in Hs;
      [|discriminate].
    injection Hs as Hr; cbn [fst] in Hr; subst r.
    rewrite Hx at 1; rewrite app_assoc.
    rewrite (@replace_go_match marker_re [] (tag ++ x) (afterMarker rest) cs).
    + reflexivity.
    + discriminate.
    + rewrite <- app_assoc, <- Hx; exact E.
  - intros a b Hab Hb; apply exec_marker_none.
    exact (@no_occurrence_before tag pre rest borderless_tag H a b Hab Hb).
Qed.

End MarkerFacts.

(** ** The enumerability pattern *)

Section EnumerableFacts.

Local Abbreviation P := (lit "Object.defineProperty(").
Local Abbreviation E := (lit "enumerable:").
Local Abbreviation F := (lit "false").
Local Abbreviation Z := (lit "})").

Lemma firstn_consumed_eq (s x y : jsstring) :
  s = x ++ y -> firstn (length s - length y) s = x.
Proof. intros ->; apply firstn_consumed. Qed.

Lemma forallb_any (a : jsstring) : forallb (fun _ => true) a = true.
Proof. now induction a. Qed.

Lemma exec_enumerable_none (s : jsstring) :
  prefix P s = false -> exec enumerable_re s = None.
Proof.
  intros H; unfold exec, enumerable_re.
  m_seq; m_group; m_seq.
  now rewrite m_Lit, H.
Qed.

(** One call shape: the pattern matches it from its first character to its
    closing [})], and the three groups split it around the attribute. *)
Lemma exec_enumerable_call (a b w c post : jsstring) :
  forallb (fun x => negb (N.eqb 123 x)) a = true ->
  occurs E b = false ->
  forallb isWhiteSpace w = true ->
  occurs Z c = false ->
  exec enumerable_re
       (P ++ a ++ [123%N] ++ b ++ E ++ w ++ F ++ c ++ Z ++ post)
  = Some (post,
          [(3, c ++ Z); (2, E ++ w ++ F); (1, P ++ a ++ [123%N] ++ b)]).
Proof.
  intros Ha Hb Hw Hc.
  unfold exec, enumerable_re.
  m_seq; m_group; m_seq; rewrite m_Lit_app.
  m_seq; m_star.
  apply (@lazy_class_first (fun _ => true)); [apply forallb_any | | | lia].
  { (* no opening brace inside [a] *)
    intros a1 [|x a2] -> Hne; [congruence|].
    rewrite forallb_app in Ha; apply andb_true_iff in Ha as [_ Ha].
    cbn [forallb] in Ha; apply andb_true_iff in Ha as [Hx _].
    apply negb_true_iff in Hx.
    m_seq; cbn [app]; m_char; now rewrite Hx. }
  m_seq; cbn [app]; m_char; rewrite N.eqb_refl.
  m_star.
  apply (@lazy_class_first (fun _ => true)); [apply forallb_any | | | lia].
  { (* the attribute does not start inside [b] *)
    intros b1 b2 Hb12 Hne.
    m_seq; m_group; m_seq.
    rewrite m_Lit.
    now rewrite (@no_occurrence_before E b _ eq_refl Hb b1 b2 Hb12 Hne). }
  rewrite (@firstn_consumed_eq _ (P ++ a ++ [123%N] ++ b))
    by (now rewrite <- !app_assoc).
  m_seq; m_group; m_seq; rewrite m_Lit_app.
  m_seq; m_star.
  apply greedy_class_all; [exact Hw | reflexivity | | lia].
  rewrite m_Lit_app.
  rewrite (@firstn_consumed_eq _ (E ++ w ++ F))
    by (now rewrite <- !app_assoc).
  m_group; m_seq; m_star.
  apply (@lazy_class_first (fun _ => true)); [apply forallb_any | | | lia].
  { (* the closing does not start inside [c] *)
    intros c1 c2 Hc12 Hne.
    rewrite m_Lit.
    now rewrite (@no_occurrence_before Z c _ eq_refl Hc c1 c2 Hc12 Hne). }
  rewrite m_Lit_app.
  rewrite (@firstn_consumed_eq _ (c ++ Z)) by (now rewrite <- !app_assoc).
  reflexivity.
Qed.

Lemma P_app_nonempty (x : jsstring) : P ++ x <> [].
Proof.
  change P with (79%N :: lit "bject.defineProperty("); discriminate.
Qed.

Lemma borderless_P : borderless P = true.
Proof. reflexivity. Qed.

(** Text without [Object.defineProperty(] is left as it is. *)
Lemma patchEnumerable_id (s : jsstring) :
  occurs P s = false -> patchEnumerable s = s.
Proof.
  intros H; apply replace_go_id.
  intros a b ->; apply exec_enumerable_none, occurs_prefix_false.
  now apply occurs_app_false_r in H.
Qed.

(** The first call shape in the text has its attribute rewritten; the text
    in front of it is copied and the replacement goes on behind it. *)
Lemma patchEnumerable_call (pre a b w c post : jsstring) :
  occurs P pre = false ->
  forallb (fun x => negb (N.eqb 123 x)) a = true ->
  occurs E b = false ->
  forallb isWhiteSpace w = true ->
  occurs Z c = false ->
  patchEnumerable
    (pre ++ P ++ a ++ [123%N] ++ b ++ E ++ w ++ F ++ c ++ Z ++ post)
  = pre ++ P ++ a ++ [123%N] ++ b ++ lit "enumerable: true" ++ c ++ Z
        ++ patchEnumerable post.
Proof.
  intros Hpre Ha Hb Hw Hc; unfold patchEnumerable, replace_global.
  rewrite replace_go_copy.
  - f_equal.
    pose proof (@exec_enumerable_call a b w c post Ha Hb Hw Hc) as He.
    replace (P ++ a ++ [123%N] ++ b ++ E ++ w ++ F ++ c ++ Z ++ post)
      with ((P ++ a ++ [123%N] ++ b ++ E ++ w ++ F ++ c ++ Z) ++ post) in *
      by (now rewrite <- !app_assoc).
    rewrite (@replace_go_match _ enumerable_template _ _ _ (@P_app_nonempty _) He).
    cbn [expand enumerable_template capture Nat.eqb].
    now rewrite app_nil_r, <- !app_assoc.
  - intros x y Hxy Hy; apply exec_enumerable_none.
    exact (@no_occurrence_before P pre _ borderless_P Hpre x y Hxy Hy).
Qed.

End EnumerableFacts.

(** ** The traversal *)

Section TraversalFacts.

Variable tm : jsstring -> TranspileOptions -> exn + TranspileOutput.

Lemma Node_ind_nested (Q : Node -> Prop) :
  (forall k ds tr t cs, Forall Q cs -> Q (mkNode k ds tr t cs)) ->
  forall n, Q n.
Proof.
  intros H; fix IH 1; intros [k ds tr t cs].
  apply H; induction cs as [|c cs IHcs]; constructor; [apply IH | exact IHcs].
Qed.

Lemma visitNode_matched (n : Node) :
  matched n = true -> visitNode tm n = createHelper tm n.
Proof.
  unfold matched; intros H; destruct n; cbn [visitNode]; now rewrite H.
Qed.

Lemma visitNode_unmatched (n : Node) :
  matched n = false -> visitNode tm n = visitEachChild n (visitNode tm).
Proof.
  unfold matched; intros H; destruct n; cbn [visitNode]; now rewrite H.
Qed.


(** *** Visiting a list *)

Lemma mapM_ret {A} (f : A -> M A) (l : list A) :
  Forall (fun x => f x = ret x) l -> mapM f l = ret l.
Proof.
  induction 1 as [|x l Hx _ IH]; [reflexivity|].
  cbn [mapM]; rewrite Hx; unfold ret, bind; cbn [app].
  fold (mapM f l); now rewrite IH.
Qed.

Lemma mapM_success {A B} (f : A -> M B) (l : list A) (l' : list B) :
  value (mapM f l) = inr l' ->
  Forall2 (fun x y => value (f x) = inr y) l l'
  /\ calls (mapM f l) = concat (map (fun x => calls (f x)) l).
Proof.
  revert l'; induction l as [|x l IH]; intros l'.
  - intros [= <-]; split; [constructor | reflexivity].
  - cbn [mapM map concat]; fold (mapM f l).
    destruct (f x) as [[e|y] lx] eqn:Ex; cbn [bind value calls fst snd];
      [discriminate|].
    destruct (mapM f l) as [[e|ys] ll]; cbn [bind ret value calls fst snd] in *;
      [discriminate|].
    intros [= <-].
    destruct (IH ys eq_refl) as [HF Hc].
    split; [constructor; [now rewrite Ex | exact HF]|].
    now rewrite app_nil_r, Hc.
Qed.

Lemma mapM_throws {A B} (f : A -> M B) (l : list A) (x : A) (e : exn) :
  In x l -> value (f x) = inl e -> exists e', value (mapM f l) = inl e'.
Proof.
  induction l as [|a l IH]; intros Hin Hx; [contradiction|].
  cbn [mapM]; fold (mapM f l).
  destruct (f a) as [[ea|y] la] eqn:Ea; cbn [bind value fst];
    [now exists ea|].
  destruct Hin as [->|Hin].
  - rewrite Ea in Hx; discriminate.
  - destruct (IH Hin Hx) as [e' He'].
    destruct (mapM f l) as [[el|ys] ll]; cbn [value fst] in He';
      [|discriminate].
    now exists el.
Qed.

Lemma mapM_calls_in {A B} (f : A -> M B) (l : list A) (c : TranspileCall) :
  In c (calls (mapM f l)) -> exists x, In x l /\ In c (calls (f x)).
Proof.
  induction l as [|a l IH]; [contradiction|].
  cbn [mapM]; fold (mapM f l).
  destruct (f a) as [[ea|y] la] eqn:Ea; cbn [bind calls snd].
  - intros H; exists a; rewrite Ea; split; [now left | exact H].
  - destruct (mapM f l) as [[el|ys] ll]; cbn [bind ret calls snd] in *.
    + intros H; apply in_app_or in H as [H|H].
      * exists a; rewrite Ea; split; [now left | exact H].
      * destruct (IH H) as (x & Hx & Hc); exists x; split;
          [now right | exact Hc].
    + rewrite app_nil_r.
      intros H; apply in_app_or in H as [H|H].
      * exists a; rewrite Ea; split; [now left | exact H].
      * destruct (IH H) as (x & Hx & Hc); exists x; split;
          [now right | exact Hc].
Qed.

Lemma list_sum_cons (a : nat) (l : list nat) :
  list_sum (a :: l) = a + list_sum l.
Proof. reflexivity. Qed.


(** *** Visiting a node *)

Lemma visitNode_identity (n : Node) :
  containsMatch n = false -> visitNode tm n = ret n.
Proof.
  induction n as [k ds tr t cs IH] using Node_ind_nested.
  cbn [containsMatch]; intros H; apply orb_false_iff in H as [Hm Hcs].
  rewrite (visitNode_unmatched _ Hm); unfold visitEachChild; cbn [children].
  rewrite mapM_ret; [reflexivity|].
  rewrite Forall_forall in *; intros c Hc; apply IH; [exact Hc|].
  destruct (containsMatch c) eqn:E; [|reflexivity].
  rewrite <- Hcs; symmetry; apply existsb_exists; now exists c.
Qed.

Lemma createHelper_calls (n : Node) :
  calls (createHelper tm n)
  = [mkCall (removeMarker (getText n)) transpileOptions].
Proof.
  unfold createHelper, callTranspile, bind, ret.
  destruct (tm _ _); reflexivity.
Qed.

Lemma createHelper_value (n : Node) :
  value (createHelper tm n)
  = match tm (removeMarker (getText n)) transpileOptions with
    | inl e => inl e
    | inr o => inr (createIdentifier (patchEnumerable (outputText o)))
    end.
Proof.
  unfold createHelper, callTranspile, bind, ret.
  destruct (tm _ _); reflexivity.
Qed.

Lemma visitEachChild_success (n n' : Node) (f : Node -> M Node) :
  value (visitEachChild n f) = inr n' ->
  exists cs', n' = updateChildren n cs'
              /\ Forall2 (fun c c' => value (f c) = inr c') (children n) cs'
              /\ calls (visitEachChild n f)
                 = concat (map (fun c => calls (f c)) (children n)).
Proof.
  unfold visitEachChild.
  destruct (mapM f (children n)) as [[e|cs'] l] eqn:E;
    cbn [bind ret value calls fst snd]; [discriminate|].
  intros [= <-]; exists cs'.
  destruct (@mapM_success _ _ f (children n) cs') as [HF Hc];
    [now rewrite E|].
  rewrite E in Hc; cbn [calls snd] in Hc.
  now rewrite app_nil_r.
Qed.



Lemma visitNode_throws (n : Node) :
  Throws tm n -> exists e, value (visitNode tm n) = inl e.
Proof.
  induction 1 as [n e Hm He | n c Hm Hin _ [e He]].
  - exists e; now rewrite (visitNode_matched _ Hm), createHelper_value, He.
  - rewrite (visitNode_unmatched _ Hm); unfold visitEachChild.
    destruct (mapM_throws (visitNode tm) _ _ Hin He) as [e' He'].
    destruct (mapM _ _) as [[el|ys] ll]; cbn [value fst] in He';
      [|discriminate].
    now exists el.
Qed.

Lemma visitNode_options (n : Node) (c : TranspileCall) :
  In c (calls (visitNode tm n)) -> call_options c = transpileOptions.
Proof.
  induction n as [k ds tr t cs IH] using Node_ind_nested.
  destruct (matched (mkNode k ds tr t cs)) eqn:Hm.
  - rewrite (visitNode_matched _ Hm), createHelper_calls.
    intros [<-|[]]; reflexivity.
  - rewrite (visitNode_unmatched _ Hm); unfold visitEachChild.
    cbn [children].
    destruct (mapM (visitNode tm) cs) as [[e|cs'] l] eqn:E;
      cbn [bind ret calls snd]; rewrite ?app_nil_r; intros Hc.
    + assert (In c (calls (mapM (visitNode tm) cs))) as Hin
          by (now rewrite E).
      apply mapM_calls_in in Hin as (x & Hx & Hcx).
      rewrite Forall_forall in IH; now apply (IH x).
    + assert (In c (calls (mapM (visitNode tm) cs))) as Hin
          by (now rewrite E).
      apply mapM_calls_in in Hin as (x & Hx & Hcx).
      rewrite Forall_forall in IH; now apply (IH x).
Qed.

(** *** The output holds no accepted declaration *)

Lemma visitNode_clears (n n' : Node) :
  value (visitNode tm n) = inr n' -> containsMatch n' = false.
Proof.
  revert n'; induction n as [k ds tr t cs IH] using Node_ind_nested.
  intros n'.
  destruct (matched (mkNode k ds tr t cs)) eqn:Hm.
  - rewrite (visitNode_matched _ Hm), createHelper_value.
    destruct (tm _ _); [discriminate|]; now intros [= <-].
  - rewrite (visitNode_unmatched _ Hm); intros H.
    apply visitEachChild_success in H as (cs' & -> & HF & _).
    cbn [updateChildren containsMatch children] in *.
    change (matched (mkNode k ds tr t cs'))
      with (matched (mkNode k ds tr t cs)); rewrite Hm; cbn [orb].
    clear Hm; revert cs' HF; induction IH as [|c cs Hc _ IHcs];
      intros cs' HF; inversion HF as [|? c' ? cs'' Hcc HF']; subst;
      [reflexivity|].
    cbn [existsb]; now rewrite (Hc c' Hcc), (IHcs cs'' HF').
Qed.

(** *** The output tree against the input tree *)

Lemma countOutermost_none (n : Node) :
  containsMatch n = false -> countOutermost n = 0.
Proof.
  induction n as [k ds tr t cs IH] using Node_ind_nested.
  cbn [containsMatch countOutermost]; intros H.
  apply orb_false_iff in H as [-> Hcs].
  induction IH as [|c cs Hc _ IHcs]; [reflexivity|].
  cbn [existsb] in Hcs; apply orb_false_iff in Hcs as [H1 H2].
  cbn [map]; now rewrite list_sum_cons, (Hc H1), (IHcs H2).
Qed.






End TraversalFacts.

(** ** The claims *)

Section Claims.

Variable tm : jsstring -> TranspileOptions -> exn + TranspileOutput.

Lemma closeParen_plain (a post : jsstring) :
  forallb (fun c => negb (N.eqb 41 c)
                    && (negb (isLineTerminator c) || N.eqb 10 c)) a = true ->
  closeParen (a ++ [41%N] ++ post) = Some post.
Proof.
  induction a as [|c a IH]; intros H; [reflexivity|].
  cbn [forallb] in H.
  apply andb_true_iff in H as [Hc Ha].
  apply andb_true_iff in Hc as [H41 Hdot].
  apply negb_true_iff in H41.
  cbn [app closeParen]; rewrite H41, Hdot.
  now apply IH.
Qed.

Lemma afterMarker_plain (args : option jsstring) (post : jsstring) :
  plainArguments args post = true ->
  afterMarker (argumentList args ++ post) = post.
Proof.
  destruct args as [a|]; cbn [plainArguments argumentList]; intros H.
  - rewrite <- !app_assoc; cbn [app afterMarker N.eqb Pos.eqb].
    change (a ++ 41%N :: post) with (a ++ [41%N] ++ post).
    now rewrite closeParen_plain.
  - destruct post as [|c post]; [reflexivity|].
    apply negb_true_iff in H; cbn [app afterMarker]; now rewrite H.
Qed.

Lemma transform_success (source out : SourceFile) :
  value (transform tm source) = inr out ->
  exists stmts,
    out = updateSourceFile source stmts
    /\ value (visitNodes (statements source) (visitNode tm)) = inr stmts
    /\ calls (transform tm source)
       = calls (visitNodes (statements source) (visitNode tm)).
Proof.
  unfold transform.
  destruct (visitNodes _ _) as [[e|stmts] l];
    cbn [bind ret value calls fst snd]; [discriminate|].
  intros [= <-]; exists stmts; now rewrite app_nil_r.
Qed.


(** C2 (amended).  For an accepted class declaration the text handed to the
    nested compiler is [removeMarker (getText node)]: the source text from
    the first token of the declaration, leading trivia excluded, with the
    textual matches of the marker pattern removed from left to right,
    wherever they stand.  Text in which the tag does not occur is handed
    over as it is, and in front of the first occurrence of the tag the text
    is kept while the replacement goes on behind what the pattern matched
    there. *)
Theorem fragment_text (node : Node) :
  matched node = true ->
  calls (visitNode tm node)
  = [mkCall (removeMarker (getText node)) transpileOptions]
  /\ (occurs tag (getText node) = false ->
      removeMarker (getText node) = getText node)
  /\ (forall pre rest,
        getText node = pre ++ tag ++ rest ->
        occurs tag pre = false ->
        removeMarker (getText node)
        = pre ++ removeMarker (afterMarker rest)).
Proof.
  intros Hm; split; [|split].
  - now rewrite (visitNode_matched tm _ Hm), createHelper_calls.
  - apply removeMarker_id.
  - intros pre rest -> Hpre; now apply removeMarker_first.
Qed.

(** The normalizer on the text it is written for.  Text in which
    [Object.defineProperty(] does not occur is returned as it is.  In a text
    whose first [Object.defineProperty(] is followed by a run without [{],
    a [{], a run without [enumerable:], the attribute [enumerable:] with
    white space and [false], a run without [})] and a closing [})], the
    attribute is rewritten to [enumerable: true], every other character up
    to that closing is kept, and the substitution goes on behind it. *)
Theorem enumerability_patch :
  (forall s,
      occurs (lit "Object.defineProperty(") s = false ->
      patchEnumerable s = s)
  /\ (forall pre a b w c post,
        occurs (lit "Object.defineProperty(") pre = false ->
        forallb (fun x => negb (N.eqb 123 x)) a = true ->
        occurs (lit "enumerable:") b = false ->
        forallb isWhiteSpace w = true ->
        occurs (lit "})") c = false ->
        patchEnumerable
          (pre ++ lit "Object.defineProperty(" ++ a ++ [123%N] ++ b
               ++ lit "enumerable:" ++ w ++ lit "false" ++ c ++ lit "})"
               ++ post)
        = pre ++ lit "Object.defineProperty(" ++ a ++ [123%N] ++ b
              ++ lit "enumerable: true" ++ c ++ lit "})"
              ++ patchEnumerable post).
Proof.
  split; [exact patchEnumerable_id | exact patchEnumerable_call].
Qed.

(** C4 (amended).  The transformer has no error handling of its own and
    reads only [outputText] of what the nested compiler returns.  When the
    nested compiler throws for an accepted declaration, the visit of that
    declaration throws the same exception, and the transformer throws, and
    so returns no output file, when this happens for a declaration the
    traversal reaches under some statement.  When the nested compiler
    returns an output, the declaration is replaced by the identifier made
    from its patched [outputText], whatever its diagnostics. *)
Theorem nested_compile_failure (source : SourceFile) :
  (forall n e,
      matched n = true ->
      tm (removeMarker (getText n)) transpileOptions = inl e ->
      value (visitNode tm n) = inl e)
  /\ (forall n,
        In n (statements source) -> Throws tm n ->
        exists e, value (transform tm source) = inl e)
  /\ (forall n o,
        matched n = true ->
        tm (removeMarker (getText n)) transpileOptions = inr o ->
        value (visitNode tm n)
        = inr (createIdentifier (patchEnumerable (outputText o)))).
Proof.
  split; [|split].
  - intros n e Hm He.
    now rewrite (visitNode_matched tm _ Hm), createHelper_value, He.
  - intros n Hin Ht.
    destruct (visitNode_throws Ht) as [e He].
    destruct (mapM_throws (visitNode tm) _ _ Hin He) as [e' He'].
    unfold transform, visitNodes.
    destruct (mapM _ _) as [[el|ys] ll]; cbn [value fst] in He';
      [|discriminate].
    now exists el.
  - intros n o Hm Ho.
    now rewrite (visitNode_matched tm _ Hm), createHelper_value, Ho.
Qed.



(** C8.  On a source file in which no class declaration is accepted by the
    detector, at any depth, the transformer returns the input file as it is
    and compiles nothing; whatever serializes the output then gives the text
    it gives for the input. *)
Theorem transform_identity (source : SourceFile) :
  forallb (fun n => negb (containsMatch n)) (statements source) = true ->
  transform tm source = ret source
  /\ forall (print : SourceFile -> jsstring) out,
      value (transform tm source) = inr out -> print out = print source.
Proof.
  intros H.
  assert (transform tm source = ret source) as Ht.
  { unfold transform, visitNodes.
    rewrite mapM_ret.
    - now destruct source.
    - rewrite forallb_forall in H; apply Forall_forall; intros n Hn.
      apply visitNode_identity; now apply negb_true_iff, H. }
  split; [exact Ht|].
  intros print out; rewrite Ht; now intros [= <-].
Qed.

(** C9.  Every call of the nested compiler the transformer makes, for any
    source file and any accepted declaration, passes the same options: no
    helper emission, module kind ESNext (no module wrapper), target ES5.
    They are constants of the transformer. *)
Theorem transpile_options_fixed (source : SourceFile) (c : TranspileCall) :
  In c (calls (transform tm source)) ->
  call_options c = transpileOptions
  /\ noEmitHelpers (compilerOptions (call_options c)) = true
  /\ module (compilerOptions (call_options c)) = MK_ESNext
  /\ target (compilerOptions (call_options c)) = ES5.
Proof.
  intros Hin.
  assert (call_options c = transpileOptions) as ->; [|now repeat split].
  unfold transform in Hin.
  destruct (visitNodes _ _) as [[e|stmts] l] eqn:E;
    cbn [bind ret calls snd] in Hin; rewrite ?app_nil_r in Hin.
  - assert (In c (calls (mapM (visitNode tm) (statements source)))) as Hc
        by (unfold visitNodes in E; now rewrite E).
    apply mapM_calls_in in Hc as (n & _ & Hn).
    exact (visitNode_options tm _ _ Hn).
  - assert (In c (calls (mapM (visitNode tm) (statements source)))) as Hc
        by (unfold visitNodes in E; now rewrite E).
    apply mapM_calls_in in Hc as (n & _ & Hn).
    exact (visitNode_options tm _ _ Hn).
Qed.

(** C10.  A node that is not a class declaration is never replaced, whatever
    its decorators: the traversal goes into its children, and when it
    returns, the result is a node of the same kind with the same decorators,
    trivia and text around the visited children; the nested compiler is
    called for it only through its children. *)
Theorem visitNode_not_class (node : Node) :
  isClassDeclaration node = false ->
  visitNode tm node = visitEachChild node (visitNode tm)
  /\ forall node',
      value (visitNode tm node) = inr node' ->
      kind node' = kind node
      /\ getDecorators node' = getDecorators node
      /\ getFullText node' = getFullText node
      /\ Forall2 (fun c c' => value (visitNode tm c) = inr c')
                 (children node) (children node')
      /\ calls (visitNode tm node)
         = concat (map (fun c => calls (visitNode tm c)) (children node)).
Proof.
  intros Hk.
  assert (matched node = false) as Hm by (unfold matched; now rewrite Hk).
  split; [exact (visitNode_unmatched tm _ Hm)|].
  intros node'; rewrite (visitNode_unmatched tm _ Hm); intros H.
  apply visitEachChild_success in H as (cs' & -> & HF & Hc).
  destruct node; cbn in *; repeat split; assumption.
Qed.

End Claims.

(** ** The claims on sample inputs *)



Lemma fragment_text_witness :
  matched classA = true
  /\ calls (visitNode echoCompiler classA)
     = [mkCall (lit " class A {}") transpileOptions].
Proof.
  assert (matched classA = true) as H by (vm_compute; reflexivity).
  split; [exact H|].
  exact (proj1 (@fragment_text echoCompiler classA H)).
Defined.

(** C2, as stated, fails on a marked class with a comment in front whose
    method returns the string ['@NativeClass']: the text handed to the nested
    compiler lacks the leading comment, and the method body is not
    preserved, the tag inside the string literal is removed as well. *)
Lemma fragment_counterexample :
  matched classTagInBody = true
  /\ calls (visitNode echoCompiler classTagInBody)
     = [mkCall (lit " class A { m() { return ''; } }") transpileOptions]
  /\ occurs (lit "m() { return '@NativeClass'; }") (getText classTagInBody)
     = true
  /\ occurs (lit "m() { return '@NativeClass'; }")
            (lit " class A { m() { return ''; } }") = false
  /\ occurs (lit "/* ios */") (getFullText classTagInBody) = true
  /\ occurs (lit "/* ios */") (lit " class A { m() { return ''; } }") = false.
Proof. repeat split; vm_compute; reflexivity. Qed.

Lemma enumerability_patch_witness :
  patchEnumerable (lit "var x = 1;") = lit "var x = 1;"
  /\ patchEnumerable
       (lit "var A = 1; Object.defineProperty(A.prototype, 'x', { get: function () { return 1; }, enumerable: false, configurable: true });")
     = lit "var A = 1; Object.defineProperty(A.prototype, 'x', { get: function () { return 1; }, enumerable: true, configurable: true });".
Proof.
  split.
  - exact (proj1 enumerability_patch (lit "var x = 1;") eq_refl).
  - exact (proj2 enumerability_patch
                 (lit "var A = 1; ") (lit "A.prototype, 'x', ")
                 (lit " get: function () { return 1; }, ") [32%N]
                 (lit ", configurable: true ") (lit ";")
                 eq_refl eq_refl eq_refl eq_refl eq_refl).
Defined.

(** C3.  The normalizer is to rewrite the attribute of property definitions
    and to leave all other text as it is.  On emitted text in which a
    property definition that does not set the attribute is followed by an
    object literal [{ enumerable: false }] of the method body and by a call
    [f({})], the pattern runs from [Object.defineProperty(] over the end of
    that call to the literal: the code rewrites the literal to
    [{ enumerable: true }], text outside any property definition. *)
Lemma patchEnumerable_rewrites_unrelated :
  patchEnumerable emittedUnrelated
  = lit "Object.defineProperty(this, 'x', { value: 1 }); var c = { enumerable: true }; f({});"
  /\ patchEnumerable emittedUnrelated <> emittedUnrelated.
Proof. split; [vm_compute; reflexivity | vm_compute; discriminate]. Qed.

Lemma nested_compile_failure_witness :
  matched classFooUnterminated = true
  /\ value (visitNode throwingCompiler classFooUnterminated)
     = inl (Thrown (lit "')' expected."))
  /\ (exists e, value (transform throwingCompiler sourceUnterminated) = inl e)
  /\ value (visitNode echoCompiler classA)
     = inr (createIdentifier (lit " class A {}")).
Proof.
  assert (matched classFooUnterminated = true) as Hm
      by (vm_compute; reflexivity).
  assert (throwingCompiler (removeMarker (getText classFooUnterminated))
                           transpileOptions
          = inl (Thrown (lit "')' expected."))) as He
      by (vm_compute; reflexivity).
  destruct (@nested_compile_failure throwingCompiler sourceUnterminated)
    as (H1 & H2 & _).
  destruct (@nested_compile_failure echoCompiler sourceFlat) as (_ & _ & H3).
  split; [exact Hm|].
  split; [exact (H1 _ _ Hm He)|].
  split.
  - apply (H2 classFooUnterminated); [now left|].
    exact (Throws_here throwingCompiler _ Hm He).
  - apply (H3 classA {| outputText := lit " class A {}";
                        diagnostics := None |});
      vm_compute; reflexivity.
Defined.

(** C4, as stated, fails for a marker with an unterminated argument list in
    front of an exported class.  The fragment, the text without the tag,
    does not parse: its parenthesis is never closed.  A nested compiler that
    recovers from the error, as [ts.transpileModule] does, returns an
    output; it would report the error only on request, and
    [reportDiagnostics] is not set.  The transformer returns an output file
    with the declaration replaced by the text the compiler returned. *)
Lemma failure_counterexample :
  matched classFooUnterminated = true
  /\ removeMarker (getText classFooUnterminated)
     = lit "(1, 2" ++ [10%N] ++ lit "export class Foo {}"
  /\ balanced 0 (removeMarker (getText classFooUnterminated)) = false
  /\ reportDiagnostics transpileOptions = None
  /\ recoveringCompiler (removeMarker (getText classFooUnterminated))
                        transpileOptions
     = inr {| outputText := lit "(1, 2" ++ [10%N] ++ lit "export class Foo {}";
              diagnostics := None |}
  /\ recoveringCompiler
       (removeMarker (getText classFooUnterminated))
       {| compilerOptions := compilerOptions transpileOptions;
          reportDiagnostics := Some true |}
     = inr {| outputText := lit "(1, 2" ++ [10%N] ++ lit "export class Foo {}";
              diagnostics := Some [parenExpected] |}
  /\ value (transform recoveringCompiler sourceUnterminated)
     = inr {| fileName := lit "foo.ts";
              statements :=
                [createIdentifier
                   (lit "(1, 2" ++ [10%N] ++ lit "export class Foo {}");
                 varX] |}.
Proof. repeat split; vm_compute; reflexivity. Qed.




Lemma transform_identity_witness :
  forallb (fun n => negb (containsMatch n)) (statements sourcePlain) = true
  /\ transform echoCompiler sourcePlain = ret sourcePlain.
Proof.
  assert (forallb (fun n => negb (containsMatch n)) (statements sourcePlain)
          = true) as H by (vm_compute; reflexivity).
  exact (conj H (proj1 (@transform_identity echoCompiler sourcePlain H))).
Defined.

Lemma transpile_options_fixed_witness :
  In (mkCall (lit " class A {}") transpileOptions)
     (calls (transform echoCompiler sourceNested))
  /\ target (compilerOptions
               (call_options (mkCall (lit " class A {}") transpileOptions)))
     = ES5.
Proof.
  assert (In (mkCall (lit " class A {}") transpileOptions)
             (calls (transform echoCompiler sourceNested))) as H
      by (vm_compute; right; left; reflexivity).
  destruct (@transpile_options_fixed echoCompiler sourceNested _ H)
    as (_ & _ & _ & H4).
  exact (conj H H4).
Defined.

Lemma visitNode_not_class_witness :
  isClassDeclaration classExpressionB = false
  /\ isNativeClassExtension classExpressionB = JBool true
  /\ visitNode echoCompiler classExpressionB
     = visitEachChild classExpressionB (visitNode echoCompiler)
  /\ value (visitNode echoCompiler classExpressionB) = inr classExpressionB.
Proof.
  assert (isClassDeclaration classExpressionB = false) as H
      by reflexivity.
  destruct (@visitNode_not_class echoCompiler classExpressionB H)
    as (H1 & _).
  split; [exact H|].
  split; [vm_compute; reflexivity|].
  split; [exact H1|].
  vm_compute; reflexivity.
Defined.

Lemma isNativeClassExtension_spec_witness :
  isNativeClassExtension classA = JBool true
  /\ isNativeClassExtension classBar = JUndefined
  /\ truthy (isNativeClassExtension classBar) = false
  /\ isNativeClassExtension varX = JBool false.
Proof.
  destruct (isNativeClassExtension_spec classA) as ((_ & H1) & _).
  destruct (isNativeClassExtension_spec classBar)
    as (_ & (_ & H2) & _ & H4).
  destruct (isNativeClassExtension_spec varX) as (_ & _ & (_ & H3) & _).
  split; [|split; [|split]].
  - apply H1; split; [reflexivity|].
    exists [nativeClassDecorator]; split; [reflexivity|].
    exists nativeClassDecorator; split; [now left|].
    exists [], []; reflexivity.
  - apply H2; split; reflexivity.
  - apply H4; now left.
  - apply H3; now left.
Defined.

(** C5, as stated, fails on [class Bar {}], a class declaration without
    decorators: [ts.getDecorators] yields [undefined] for it and the [&&]
    chain of the detector returns that [undefined], not [false]. *)
Lemma detector_counterexample :
  isClassDeclaration classBar = true
  /\ getDecorators classBar = None
  /\ isNativeClassExtension classBar = JUndefined
  /\ isNativeClassExtension classBar <> JBool false.
Proof. repeat split; discriminate. Qed.

(** * Further properties of the transformer *)

(** ** The marker replacement only deletes *)

Section DeleteOnly.

Lemma Subseq_refl (s : jsstring) : Subseq s s.
Proof. induction s; constructor; assumption. Qed.

Lemma Subseq_length (r s : jsstring) : Subseq r s -> length r <= length s.
Proof. induction 1; simpl; lia. Qed.

Lemma replace_go_delete (r : regex) (s : jsstring) (skip : nat) :
  Subseq (replace_go r [] skip s) s.
Proof.
  revert skip; induction s as [|c s IH]; intros skip.
  - destruct skip; cbn [replace_go]; [|constructor].
    destruct (exec r []) as [[rest cs]|]; constructor.
  - destruct skip as [|n]; cbn [replace_go]; [|constructor; apply IH].
    destruct (exec r (c :: s)) as [[rest cs]|]; [|constructor; apply IH].
    destruct (length (c :: s) - length rest); cbn [expand app];
      constructor; apply IH.
Qed.

(** X1.  Removing the marker only deletes characters: what is handed to the
    nested compiler is the text of the declaration with some characters
    left out, in the same order, and is never longer than the text. *)
Theorem removeMarker_deletes (text : jsstring) :
  Subseq (removeMarker text) text
  /\ length (removeMarker text) <= length text.
Proof.
  assert (Subseq (removeMarker text) text) as H
      by apply replace_go_delete.
  split; [exact H | exact (Subseq_length H)].
Qed.

End DeleteOnly.

(** ** Argument lists the marker pattern does not take *)

Section BrokenArguments.

Lemma closeParen_unterminated (s : jsstring) :
  forallb (fun c => negb (N.eqb 41 c)) s = true -> closeParen s = None.
Proof.
  induction s as [|c s IH]; [reflexivity|].
  cbn [forallb closeParen]; intros H.
  apply andb_true_iff in H as [Hc Hs]; apply negb_true_iff in Hc.
  rewrite Hc, (IH Hs); now destruct (_ || _).
Qed.

Lemma closeParen_line_break (a rest : jsstring) (c : codeunit) :
  forallb plainChar a = true ->
  isLineTerminator c = true -> N.eqb 10 c = false ->
  closeParen (a ++ c :: rest) = None.
Proof.
  intros Ha Hlt H10; induction a as [|x a IH]; cbn [app closeParen].
  - rewrite Hlt, H10; cbn [negb orb].
    destruct (N.eqb_spec 41 c) as [<-|_]; [discriminate|reflexivity].
  - cbn [forallb] in Ha; apply andb_true_iff in Ha as [Hx Ha'].
    unfold plainChar in Hx; apply andb_true_iff in Hx as [H41 Hdot].
    apply negb_true_iff in H41; rewrite H41, Hdot; now apply IH.
Qed.

(** X2.  When the parenthesis behind the tag is never closed, or a
    carriage return (or U+2028, U+2029) stands in the argument list before
    any [)], the optional group of the pattern does not match: only the tag
    is removed, and the replacement goes on with the opening parenthesis
    and the argument list still in the text. *)
Theorem removeMarker_keeps_arguments (pre : jsstring) :
  occurs tag pre = false ->
  (forall rest,
      forallb (fun c => negb (N.eqb 41 c)) rest = true ->
      removeMarker (pre ++ tag ++ [40%N] ++ rest)
      = pre ++ removeMarker ([40%N] ++ rest))
  /\ (forall a c rest,
         forallb plainChar a = true ->
         isLineTerminator c = true -> N.eqb 10 c = false ->
         removeMarker (pre ++ tag ++ [40%N] ++ a ++ [c] ++ rest)
         = pre ++ removeMarker ([40%N] ++ a ++ [c] ++ rest)).
Proof.
  intros Hpre; split.
  - intros rest Hr.
    rewrite removeMarker_first by exact Hpre.
    cbn [app afterMarker N.eqb Pos.eqb].
    now rewrite closeParen_unterminated.
  - intros a c rest Ha Hlt H10.
    rewrite removeMarker_first by exact Hpre.
    cbn [app afterMarker N.eqb Pos.eqb].
    now rewrite (@closeParen_line_break a rest c Ha Hlt H10).
Qed.

End BrokenArguments.

(** ** Emitted text without the attribute *)

Section NoAttribute.

Local Abbreviation P := (lit "Object.defineProperty(").
Local Abbreviation E := (lit "enumerable:").
Local Abbreviation F := (lit "false").

(** A lazy repetition fails when the rest of the pattern fails at every
    position. *)
Lemma lazy_class_none (p : codeunit -> bool) (k : cont) (cs : captures) :
  forall n s,
    (forall a b, s = a ++ b -> k b cs = None) ->
    star_loop (m (Class p)) false k n s cs = None.
Proof.
  induction n as [|n IH]; intros s H; cbn [star_loop].
  - exact (H [] s eq_refl).
  - rewrite (H [] s eq_refl); cbn [orelse m].
    destruct s as [|c s]; [reflexivity|].
    destruct (p c); [|reflexivity].
    destruct (length s <? length (c :: s)); [|reflexivity].
    apply IH; intros a b ->; exact (H (c :: a) b eq_refl).
Qed.

(** A greedy repetition fails when the rest of the pattern fails behind
    every part of the run. *)
Lemma greedy_class_none (p : codeunit -> bool) (k : cont) (cs : captures) :
  forall n s,
    (forall a b, s = a ++ b -> forallb p a = true -> k b cs = None) ->
    star_loop (m (Class p)) true k n s cs = None.
Proof.
  induction n as [|n IH]; intros s H; cbn [star_loop].
  - exact (H [] s eq_refl eq_refl).
  - rewrite (H [] s eq_refl eq_refl).
    destruct s as [|c s]; cbn [m]; [reflexivity|].
    destruct (p c) eqn:Hc; [|reflexivity].
    destruct (length s <? length (c :: s)); [|reflexivity].
    rewrite IH; [reflexivity|].
    intros a b -> Ha; apply (H (c :: a) b eq_refl).
    cbn [forallb]; now rewrite Hc.
Qed.

Lemma dropWhile_app_all (p : codeunit -> bool) (a b : jsstring) :
  forallb p a = true -> dropWhile p (a ++ b) = dropWhile p b.
Proof.
  induction a as [|c a IH]; [reflexivity|].
  cbn [forallb app dropWhile]; intros H.
  apply andb_true_iff in H as [-> Ha]; now apply IH.
Qed.

Lemma prefix_false_white (c : codeunit) (b : jsstring) :
  isWhiteSpace c = true -> prefix F (c :: b) = false.
Proof.
  intros Hc; change F with (102%N :: lit "alse"); cbn [prefix].
  destruct (N.eqb_spec 102 c) as [<-|_]; [discriminate|reflexivity].
Qed.

Lemma hasAttribute_suffix (a b : jsstring) :
  hasAttribute (a ++ b) = false -> attributeAt b = false.
Proof.
  induction a as [|c a IH]; cbn [app].
  - destruct b; cbn [hasAttribute]; intros H;
      now apply orb_false_iff in H.
  - cbn [hasAttribute]; intros H; apply orb_false_iff in H as [_ H].
    now apply IH.
Qed.

(** Behind [enumerable:] the rest of the second group fails where the
    attribute is not spelled out. *)
Lemma attribute_tail_none (t : jsstring) (cs : captures) (k : cont) :
  prefix F (dropWhile isWhiteSpace t) = false ->
  m (Seq (Star true (Class isWhiteSpace)) (Lit F)) t cs k = None.
Proof.
  intros H; m_seq; m_star.
  apply greedy_class_none; intros a b -> Ha.
  rewrite m_Lit.
  rewrite (@dropWhile_app_all _ a b Ha) in H.
  destruct b as [|c b]; [reflexivity|].
  destruct (isWhiteSpace c) eqn:Hc.
  - now rewrite prefix_false_white.
  - cbn [dropWhile] in H; rewrite Hc in H; now rewrite H.
Qed.

Lemma exec_enumerable_no_attribute (s : jsstring) :
  hasAttribute s = false -> exec enumerable_re s = None.
Proof.
  intros H; unfold exec, enumerable_re.
  m_seq; m_group; m_seq; rewrite m_Lit.
  destruct (prefix P s); [|reflexivity].
  rewrite <- (firstn_skipn (length P) s) in H.
  m_seq; m_star.
  apply lazy_class_none; intros a b Hab.
  rewrite Hab in H.
  m_seq.
  destruct b as [|x b]; [reflexivity|].
  m_char; destruct (N.eqb 123 x); [|reflexivity].
  m_star.
  apply lazy_class_none; intros a2 b2 Hab2.
  m_seq; m_group; m_seq; rewrite m_Lit.
  destruct (prefix E b2) eqn:HE; [|reflexivity].
  apply attribute_tail_none.
  assert (attributeAt b2 = false) as Hat.
  { apply (@hasAttribute_suffix (firstn (length P) s ++ a ++ [x] ++ a2)).
    rewrite <- H, Hab2; f_equal.
    now rewrite <- !app_assoc. }
  unfold attributeAt in Hat; rewrite HE in Hat; exact Hat.
Qed.

Lemma hasAttribute_app_r (a b : jsstring) :
  hasAttribute (a ++ b) = false -> hasAttribute b = false.
Proof.
  induction a as [|c a IH]; cbn [app]; [easy|].
  cbn [hasAttribute]; intros H; apply orb_false_iff in H as [_ H].
  now apply IH.
Qed.

(** X4.  Emitted text in which [enumerable:], white space and [false] do
    not follow one another anywhere is returned unchanged by the
    normalizer: a class without accessors, or output that already says
    [enumerable: true], is not touched. *)
Theorem patchEnumerable_no_attribute (text : jsstring) :
  hasAttribute text = false -> patchEnumerable text = text.
Proof.
  intros H; apply replace_go_id.
  intros a b ->; apply exec_enumerable_no_attribute.
  exact (@hasAttribute_app_r a b H).
Qed.

End NoAttribute.

(** ** Texts with several matches *)

Section SeveralMatches.

(** X3.  In a text with any number of marker annotations, where the tag
    occurs nowhere else, every argument list is closed, has no [)] inside
    and no line break but line feeds, and no parenthesis follows a tag that
    has no argument list, the replacement removes every annotation with its
    argument list and keeps everything else. *)
Theorem removeMarker_all (ms : list Marker) (post : jsstring) :
  markersPlain ms post = true ->
  removeMarker (withMarkers ms post) = withoutMarkers ms post.
Proof.
  induction ms as [|[pre args] ms IH]; cbn [markersPlain withMarkers
                                             withoutMarkers].
  - intros H; apply negb_true_iff in H; now apply removeMarker_id.
  - intros H.
    apply andb_true_iff in H as [H Hms].
    apply andb_true_iff in H as [Hpre Hargs].
    apply negb_true_iff in Hpre.
    rewrite removeMarker_first by exact Hpre.
    rewrite afterMarker_plain by exact Hargs.
    now rewrite IH.
Qed.

(** X5.  In emitted text with any number of property definitions of the
    shape the compiler prints ([Object.defineProperty(], arguments, [{],
    options, [enumerable:], white space, [false], options, [})]), where
    the parts hold no [Object.defineProperty(], [{], [enumerable:] or [})]
    of their own, every attribute is rewritten to [enumerable: true] and
    nothing else is changed. *)
Theorem patchEnumerable_all (calls : list PropertyCall) (post : jsstring) :
  forallb callPlain calls = true ->
  occurs (lit "Object.defineProperty(") post = false ->
  patchEnumerable (emittedCalls false calls post)
  = emittedCalls true calls post.
Proof.
  intros Hc Hpost; induction calls as [|pc calls IH];
    cbn [emittedCalls].
  - now apply patchEnumerable_id.
  - cbn [forallb] in Hc; apply andb_true_iff in Hc as [Hpc Hcs].
    unfold callPlain in Hpc.
    repeat (apply andb_true_iff in Hpc as [Hpc ?]).
    repeat match goal with
           | H : negb _ = true |- _ => apply negb_true_iff in H
           end.
    rewrite <- !app_assoc.
    rewrite patchEnumerable_call by assumption.
    now rewrite (IH Hcs).
Qed.

End SeveralMatches.

(** ** The run of the traversal *)

Section TraversalRun.

Variable tm : jsstring -> TranspileOptions -> exn + TranspileOutput.

Lemma firstFail_app (a b : list Node) :
  firstFail tm (a ++ b)
  = match firstFail tm a with
    | Some x => Some x
    | None =>
        match firstFail tm b with
        | Some (p, f, e) => Some (a ++ p, f, e)
        | None => None
        end
    end.
Proof.
  induction a as [|n a IH]; cbn [app firstFail].
  - now destruct (firstFail tm b) as [[[p f] e]|].
  - destruct (tm _ _); [reflexivity|].
    rewrite IH.
    destruct (firstFail tm a) as [[[p f] e]|]; [reflexivity|].
    now destruct (firstFail tm b) as [[[p f] e]|].
Qed.

Lemma firstFail_None (l : list Node) :
  firstFail tm l = None <-> Forall (compiles tm) l.
Proof.
  induction l as [|n l IH]; cbn [firstFail].
  - split; [constructor | reflexivity].
  - destruct (tm (removeMarker (getText n)) transpileOptions) as [e|o] eqn:E.
    + split; [discriminate|].
      intros H; inversion H as [|? ? [o Ho] _]; subst; congruence.
    + destruct (firstFail tm l) as [[[p f] e]|].
      * split; [discriminate|].
        intros H; inversion H as [|? ? _ Hl]; subst.
        apply IH in Hl; discriminate.
      * split; [|reflexivity].
        intros _; constructor; [now exists o | now apply IH].
Qed.

Lemma firstFail_Some (l p : list Node) (f : Node) (e : exn) :
  firstFail tm l = Some (p, f, e) ->
  exists rest,
    l = p ++ f :: rest
    /\ Forall (compiles tm) p
    /\ tm (removeMarker (getText f)) transpileOptions = inl e.
Proof.
  revert p; induction l as [|n l IH]; intros p; cbn [firstFail];
    [discriminate|].
  destruct (tm (removeMarker (getText n)) transpileOptions) as [e'|o] eqn:E.
  - intros [= <- <- <-]; exists l; repeat split; [constructor | exact E].
  - destruct (firstFail tm l) as [[[p' f'] e'']|]; [|discriminate].
    intros [= <- <- <-].
    destruct (IH p' eq_refl) as (rest & -> & Hp & He).
    exists rest; repeat split; [|exact He].
    constructor; [now exists o | exact Hp].
Qed.

Lemma mapM_runs (l : list Node) :
  Forall (fun n => runs_as tm (visitNode tm n) (outermost n)) l ->
  runs_as tm (mapM (visitNode tm) l) (flat_map outermost l).
Proof.
  unfold runs_as.
  induction 1 as [|n l Hn _ IH]; [now exists []|].
  cbn [flat_map mapM]; fold (mapM (visitNode tm) l).
  rewrite firstFail_app.
  destruct (firstFail tm (outermost n)) as [[[p f] e]|].
  - now rewrite Hn.
  - destruct Hn as [n' ->].
    destruct (firstFail tm (flat_map outermost l)) as [[[p f] e]|].
    + rewrite IH; cbn [bind].
      now rewrite <- app_assoc, !map_app.
    + destruct IH as [l' ->]; cbn [bind ret].
      exists (n' :: l'); now rewrite app_nil_r, map_app.
Qed.

Lemma visitNode_runs (n : Node) : runs_as tm (visitNode tm n) (outermost n).
Proof.
  induction n as [k ds tr t cs IH] using Node_ind_nested.
  cbn [outermost].
  destruct (matched (mkNode k ds tr t cs)) eqn:Hm.
  - rewrite (visitNode_matched tm _ Hm).
    unfold runs_as, createHelper, callTranspile; cbn [firstFail].
    destruct (tm _ _) as [e|o]; cbn [bind ret]; [reflexivity|].
    eexists; reflexivity.
  - rewrite (visitNode_unmatched tm _ Hm); unfold visitEachChild.
    cbn [children].
    pose proof (mapM_runs IH) as Hl; unfold runs_as in *.
    destruct (firstFail tm (flat_map outermost cs)) as [[[p f] e]|].
    + now rewrite Hl.
    + destruct Hl as [cs' ->]; cbn [bind ret].
      eexists; now rewrite app_nil_r.
Qed.

Lemma transform_runs (source : SourceFile) :
  runs_as tm (transform tm source) (flat_map outermost (statements source)).
Proof.
  unfold transform, visitNodes.
  assert (Forall (fun n => runs_as tm (visitNode tm n) (outermost n))
                 (statements source)) as HF
      by (apply Forall_forall; intros n _; apply visitNode_runs).
  pose proof (mapM_runs HF) as Hl; unfold runs_as in *.
  destruct (firstFail tm (flat_map outermost (statements source)))
    as [[[p f] e]|].
  - now rewrite Hl.
  - destruct Hl as [l' ->]; cbn [bind ret].
    eexists; now rewrite app_nil_r.
Qed.

(** X6.  When the transformer returns an output file, the nested compiler
    has been called once for each accepted class declaration that does not
    lie inside another one, in document order, each time with the text of
    that declaration without the marker and with the fixed options; it has
    been called for nothing else. *)
Theorem transform_calls (source out : SourceFile) :
  value (transform tm source) = inr out ->
  calls (transform tm source)
  = map callOf (flat_map outermost (statements source)).
Proof.
  intros H; pose proof (transform_runs source) as Hr; unfold runs_as in Hr.
  destruct (firstFail tm _) as [[[p f] e]|].
  - rewrite Hr in H; discriminate.
  - destruct Hr as [a ->]; reflexivity.
Qed.

(** X7.  The transformer returns an output file exactly when the nested
    compiler returns an output for every accepted class declaration that
    does not lie inside another one. *)
Theorem transform_succeeds_iff (source : SourceFile) :
  (exists out, value (transform tm source) = inr out)
  <-> Forall (compiles tm) (flat_map outermost (statements source)).
Proof.
  pose proof (transform_runs source) as Hr; unfold runs_as in Hr.
  rewrite <- firstFail_None.
  destruct (firstFail tm _) as [[[p f] e]|].
  - rewrite Hr; split; [intros [out H]; discriminate | discriminate].
  - destruct Hr as [a ->]; split; [reflexivity | now exists a].
Qed.

(** X8.  When the transformer throws, the exception is the one the nested
    compiler threw for the first declaration, in document order, it could
    not compile; the declarations in front of it were compiled, that
    declaration is the last one handed to the compiler, and nothing behind
    it is compiled. *)
Theorem transform_stops_at_first_failure (source : SourceFile) (e : exn) :
  value (transform tm source) = inl e ->
  exists p f rest,
    flat_map outermost (statements source) = p ++ f :: rest
    /\ Forall (compiles tm) p
    /\ tm (removeMarker (getText f)) transpileOptions = inl e
    /\ calls (transform tm source) = map callOf p ++ [callOf f].
Proof.
  intros H; pose proof (transform_runs source) as Hr; unfold runs_as in Hr.
  destruct (firstFail tm _) as [[[p f] e']|] eqn:E.
  - rewrite Hr in *; cbn [value calls fst snd] in *.
    injection H as ->.
    destruct (firstFail_Some _ E) as (rest & Hl & Hp & He).
    exists p, f, rest; repeat split; try assumption.
    now rewrite map_app.
  - destruct Hr as [a Ha]; rewrite Ha in H; discriminate.
Qed.

(** X9.  The output of the transformer holds no class declaration the
    detector accepts, at any depth, so the transformer applied to its own
    output, with whatever nested compiler, returns that output unchanged
    and compiles nothing. *)
Theorem transform_twice (tm' : jsstring -> TranspileOptions -> exn + TranspileOutput)
        (source out : SourceFile) :
  value (transform tm source) = inr out ->
  forallb (fun n => negb (containsMatch n)) (statements out) = true
  /\ transform tm' out = ret out.
Proof.
  intros H.
  destruct (transform_success tm _ H) as (stmts & -> & Hv & _).
  unfold visitNodes in Hv; apply mapM_success in Hv as [HF _].
  cbn [updateSourceFile statements].
  assert (Forall (fun n => containsMatch n = false) stmts) as Hclear.
  { clear - HF; induction HF as [|c c' l l' Hc _ IH]; [constructor|].
    constructor; [exact (@visitNode_clears tm _ _ Hc) | exact IH]. }
  split.
  - apply forallb_forall; rewrite Forall_forall in Hclear.
    intros n Hn; now rewrite (Hclear n Hn).
  - unfold transform, visitNodes; cbn [statements].
    rewrite mapM_ret; [reflexivity|].
    rewrite Forall_forall in *; intros n Hn.
    apply visitNode_identity, Hclear, Hn.
Qed.

End TraversalRun.

(** * The font cache *)

Section FontCacheFacts.

Import FontCache.

(** ** Maps *)

Section MapFacts.

Context {V : Type}.

Lemma jsstring_eqb_eq (a b : jsstring) : jsstring_eqb a b = true <-> a = b.
Proof.
  revert b; induction a as [|x a IH]; intros [|y b]; cbn [jsstring_eqb];
    try (split; [discriminate | discriminate]); [now split|].
  rewrite andb_true_iff, N.eqb_eq, IH.
  split; [intros [-> ->]; reflexivity | intros [= -> ->]; now split].
Qed.

Lemma jsstring_eqb_refl (a : jsstring) : jsstring_eqb a a = true.
Proof. now apply jsstring_eqb_eq. Qed.

Lemma jsstring_eqb_neq (a b : jsstring) : a <> b -> jsstring_eqb a b = false.
Proof.
  intros H; destruct (jsstring_eqb a b) eqn:E; [|reflexivity].
  now apply jsstring_eqb_eq in E.
Qed.

Lemma map_has_get (k : jsstring) (mp : JsMap V) :
  map_has k mp = match map_get k mp with Some _ => true | None => false end.
Proof.
  induction mp as [|[k' v] mp IH]; [reflexivity|].
  cbn [map_has map_get]; now destruct (jsstring_eqb k k').
Qed.

Lemma map_get_set_same (k : jsstring) (v : V) (mp : JsMap V) :
  map_get k (map_set k v mp) = Some v.
Proof.
  induction mp as [|[k' v'] mp IH]; cbn [map_set map_get].
  - now rewrite jsstring_eqb_refl.
  - destruct (jsstring_eqb k k') eqn:E; cbn [map_get]; now rewrite E.
Qed.

Lemma map_get_set_other (k k' : jsstring) (v : V) (mp : JsMap V) :
  k' <> k -> map_get k' (map_set k v mp) = map_get k' mp.
Proof.
  intros Hne; induction mp as [|[k0 v0] mp IH]; cbn [map_set map_get].
  - now rewrite jsstring_eqb_neq.
  - destruct (jsstring_eqb k k0) eqn:E; cbn [map_get].
    + apply jsstring_eqb_eq in E; subst k0.
      now rewrite jsstring_eqb_neq.
    + now rewrite IH.
Qed.

Lemma map_size_set (k : jsstring) (v : V) (mp : JsMap V) :
  map_size (map_set k v mp)
  = if map_has k mp then map_size mp else S (map_size mp).
Proof.
  unfold map_size; induction mp as [|[k' v'] mp IH]; [reflexivity|].
  cbn [map_set map_has].
  destruct (jsstring_eqb k k'); cbn [orb length]; [reflexivity|].
  rewrite IH; now destruct (map_has k mp).
Qed.

Lemma map_set_keys (k : jsstring) (v : V) (mp : JsMap V) :
  map fst (map_set k v mp)
  = if map_has k mp then map fst mp else map fst mp ++ [k].
Proof.
  induction mp as [|[k' v'] mp IH]; [reflexivity|].
  cbn [map_set map_has].
  destruct (jsstring_eqb k k'); cbn [orb map fst]; [reflexivity|].
  rewrite IH; now destruct (map_has k mp).
Qed.

Lemma map_has_In (k : jsstring) (mp : JsMap V) :
  map_has k mp = true <-> In k (map fst mp).
Proof.
  induction mp as [|[k' v'] mp IH]; cbn [map_has map fst In];
    [split; [discriminate | contradiction]|].
  rewrite orb_true_iff, IH, jsstring_eqb_eq.
  split; (intros [H|H]; [left; now symmetry | now right]).
Qed.

End MapFacts.

(** ** [getUIFontCached] *)

Section CacheFacts.

Variables number UIFont CGFont Axis : Type.
Variable numberToString : number -> jsstring.
Variable settingsToString :
  option (list (FontVariationSettingsType number)) -> jsstring.
Variable createUIFont : FontDescriptor number -> UIFont.
Variable fontName : UIFont -> jsstring.
Variable CGFontCreateWithFontName : jsstring -> CGFont.
Variable CGFontCopyVariationAxes : CGFont -> list Axis.
Variable axisName : Axis -> jsstring.
Variable CGFontCreateCopyWithVariations : CGFont -> JsMap number -> CGFont.
Variable CTFontCreateWithGraphicsFont : CGFont -> number -> UIFont.
Variable fuzzySearch : jsstring -> list jsstring -> option (list jsstring).
Variable traceEnabled : bool.

Local Abbreviation key := (computeFontCacheKey numberToString settingsToString).
Local Abbreviation cached :=
  (getUIFontCached numberToString settingsToString createUIFont fontName
                   CGFontCreateWithFontName CGFontCopyVariationAxes axisName
                   CGFontCreateCopyWithVariations CTFontCreateWithGraphicsFont
                   fuzzySearch traceEnabled).

Lemma traceWrite_cache (ev : TraceEvent number) (st : FontState number UIFont) :
  uiFontCache (traceWrite traceEnabled ev st) = uiFontCache st.
Proof. unfold traceWrite; now destruct traceEnabled. Qed.

(** The font a call returns is the one the cache holds for the key
    afterwards. *)
Lemma cached_stored (fd : FontDescriptor number) (st : FontState number UIFont) :
  exists font,
    fst (cached fd st) = Some font
    /\ map_get (key fd) (uiFontCache (snd (cached fd st))) = Some font.
Proof.
  unfold getUIFontCached.
  destruct (map_has (key fd) (uiFontCache st)) eqn:Hhas;
    cbn [fst snd]; rewrite traceWrite_cache.
  - rewrite map_has_get in Hhas.
    destruct (map_get (key fd) (uiFontCache st)) as [font|];
      [now exists font | discriminate].
  - cbn [uiFontCache]; eexists; split; [reflexivity|].
    apply map_get_set_same.
Qed.

(** X10.  A call of [getUIFontCached] never returns [undefined], and a later
    call with a descriptor that has the same cache key, the same descriptor
    or another one, returns the very font the first call returned and
    leaves the cache as it is. *)
Theorem getUIFontCached_reuse (fd fd' : FontDescriptor number)
        (st : FontState number UIFont) :
  key fd' = key fd ->
  exists font,
    fst (cached fd st) = Some font
    /\ fst (cached fd' (snd (cached fd st))) = Some font
    /\ uiFontCache (snd (cached fd' (snd (cached fd st))))
       = uiFontCache (snd (cached fd st)).
Proof.
  intros Hk.
  destruct (cached_stored fd st) as (font & H1 & H2).
  exists font; split; [exact H1|].
  remember (snd (cached fd st)) as st1 eqn:Est1.
  unfold getUIFontCached; rewrite Hk.
  rewrite map_has_get, H2; cbn [fst snd].
  now rewrite traceWrite_cache.
Qed.

(** X11.  [getUIFontCached] never removes or overwrites an entry of the
    cache: a font stored under a key stays the font of that key after any
    call, and the entries of keys other than the key of the descriptor are
    the same before and after. *)
Theorem getUIFontCached_keeps_entries (fd : FontDescriptor number)
        (st : FontState number UIFont) (k : jsstring) :
  (forall font,
      map_get k (uiFontCache st) = Some font ->
      map_get k (uiFontCache (snd (cached fd st))) = Some font)
  /\ (k <> key fd ->
      map_get k (uiFontCache (snd (cached fd st)))
      = map_get k (uiFontCache st)).
Proof.
  unfold getUIFontCached.
  destruct (map_has (key fd) (uiFontCache st)) eqn:Hhas;
    cbn [fst snd]; rewrite traceWrite_cache; [now split|].
  cbn [uiFontCache]; split.
  - intros font Hf.
    destruct (list_eq_dec N.eq_dec k (key fd)) as [->|Hne].
    + rewrite map_has_get, Hf in Hhas; discriminate.
    + now rewrite map_get_set_other.
  - intros Hne; now apply map_get_set_other.
Qed.

(** X12.  The cache keeps one entry for each key: when its keys are
    pairwise different before a call they are so after it; the call adds
    exactly one entry, at the end, when the key of the descriptor is new
    and none otherwise. *)
Theorem getUIFontCached_size (fd : FontDescriptor number)
        (st : FontState number UIFont) :
  NoDup (map fst (uiFontCache st)) ->
  NoDup (map fst (uiFontCache (snd (cached fd st))))
  /\ map fst (uiFontCache (snd (cached fd st)))
     = (if map_has (key fd) (uiFontCache st)
        then map fst (uiFontCache st)
        else map fst (uiFontCache st) ++ [key fd])
  /\ map_size (uiFontCache (snd (cached fd st)))
     = (if map_has (key fd) (uiFontCache st)
        then map_size (uiFontCache st)
        else S (map_size (uiFontCache st))).
Proof.
  intros Hnd; unfold getUIFontCached.
  destruct (map_has (key fd) (uiFontCache st)) eqn:Hhas;
    cbn [fst snd]; rewrite traceWrite_cache; [now repeat split|].
  cbn [uiFontCache].
  rewrite map_set_keys, map_size_set, Hhas.
  repeat split.
  apply NoDup_app; repeat split; [exact Hnd | repeat constructor; easy |].
  intros x Hx [<-|[]].
  apply map_has_In in Hx; congruence.
Qed.

(** ** The variation settings *)

Lemma find_app {A} (f : A -> bool) (l1 l2 : list A) :
  find f (l1 ++ l2)
  = match find f l1 with Some x => Some x | None => find f l2 end.
Proof.
  induction l1 as [|a l1 IH]; [reflexivity|].
  cbn [app find]; now destruct (f a).
Qed.

Lemma addVariation_get (names : list jsstring) (d : JsMap number)
      (v : FontVariationSettingsType number) (name : jsstring) :
  map_get name (addVariation fuzzySearch names d v)
  = if resolvesTo fuzzySearch names name v
       && negb (jsstring_eqb name (lit "__proto__"))
    then Some (value v)
    else map_get name d.
Proof.
  unfold addVariation, resolvesTo, resolvedAxis, object_set.
  destruct (fuzzySearch (axis v) names) as [[|n l]|]; try reflexivity.
  destruct (jsstring_eqb name n) eqn:E; cbn [andb].
  - apply jsstring_eqb_eq in E; subst n.
    destruct (jsstring_eqb name (lit "__proto__")); cbn [negb];
      [reflexivity | apply map_get_set_same].
  - destruct (jsstring_eqb n (lit "__proto__")); [reflexivity|].
    apply map_get_set_other; intros ->.
    now rewrite jsstring_eqb_refl in E.
Qed.

Lemma variations_get (names : list jsstring)
      (settings : list (FontVariationSettingsType number))
      (name : jsstring) (d : JsMap number) :
  map_get name (fold_left (addVariation fuzzySearch names) settings d)
  = if jsstring_eqb name (lit "__proto__") then map_get name d
    else match find (resolvesTo fuzzySearch names name) (rev settings) with
         | Some v => Some (value v)
         | None => map_get name d
         end.
Proof.
  revert d; induction settings as [|v l IH]; intros d.
  - cbn [fold_left rev find];
      now destruct (jsstring_eqb name (lit "__proto__")).
  - cbn [fold_left rev]; rewrite IH, find_app, addVariation_get.
    destruct (jsstring_eqb name (lit "__proto__")); cbn [negb];
      [now rewrite andb_false_r|].
    rewrite andb_true_r.
    destruct (find _ (rev l)); [reflexivity|].
    cbn [find]; now destruct (resolvesTo fuzzySearch names name v).
Qed.

(** X13.  On a cache miss [getUIFontCached] returns the font
    [createUIFont] makes when the descriptor has no variation settings or
    an empty list of them.  With settings it returns the font made by
    [CTFontCreateWithGraphicsFont] from the graphics font with variations,
    and the variations handed to [CGFontCreateCopyWithVariations] hold, as
    own properties: for an axis name other than [__proto__], the value of
    the last setting of the descriptor that [fuzzySearch] resolves to that
    name (its first result) and nothing when no setting resolves to it;
    nothing under [__proto__].  A setting for which [fuzzySearch] finds
    nothing is skipped. *)
Theorem getUIFontCached_variations (fd : FontDescriptor number)
        (st : FontState number UIFont) :
  map_has (key fd) (uiFontCache st) = false ->
  match fontVariationSettings fd with
  | Some (v :: vs) =>
      let font := CGFontCreateWithFontName (fontName (createUIFont fd)) in
      let names := map axisName (CGFontCopyVariationAxes font) in
      exists variations,
        fst (cached fd st)
        = Some (CTFontCreateWithGraphicsFont
                  (CGFontCreateCopyWithVariations font variations)
                  (fontSize fd))
        /\ forall name,
            map_get name variations
            = if jsstring_eqb name (lit "__proto__") then None
              else option_map (@value number)
                              (find (resolvesTo fuzzySearch names name)
                                    (rev (v :: vs)))
  | _ => fst (cached fd st) = Some (createUIFont fd)
  end.
Proof.
  intros Hhas; unfold getUIFontCached; rewrite Hhas; cbn [fst].
  destruct (fontVariationSettings fd) as [[|v vs]|]; try reflexivity.
  unfold withVariations; cbv zeta.
  eexists; split; [reflexivity|].
  intros name; rewrite variations_get.
  destruct (jsstring_eqb name (lit "__proto__")); [reflexivity|].
  now destruct (find _ _).
Qed.

End CacheFacts.

(** ** The cache key *)

Section KeyFacts.

Lemma replace_class (p : codeunit -> bool) (t : template) (s : jsstring) :
  replace_global (Class p) t s
  = flat_map (fun c => if p c then expand t [] else [c]) s.
Proof.
  unfold replace_global; induction s as [|c s IH]; [reflexivity|].
  cbn [replace_go flat_map exec m].
  destruct (p c).
  - replace (length (c :: s) - length s) with 1 by (cbn [length]; lia).
    now rewrite IH.
  - now rewrite IH.
Qed.

Lemma sanitize_spec (s : jsstring) :
  sanitize s
  = map (fun c => if isWhiteSpace c || N.eqb c 44 then 95%N else c)
        (filter (fun c => negb (N.eqb 39 c)) s).
Proof.
  unfold sanitize, quote_re, separator_re, Char; rewrite !replace_class.
  induction s as [|c s IH]; [reflexivity|].
  cbn [flat_map filter expand].
  destruct (N.eqb 39 c); cbn [negb app]; [exact IH|].
  cbn [flat_map map]; rewrite <- IH.
  now destruct (isWhiteSpace c || N.eqb c 44).
Qed.

(** X14.  The cache key is the family names, the size, the weight, the
    sanitized text of the variation settings and the two flags, joined by
    [:].  The sanitized text is the text of the settings with every ['] left
    out and every white-space character and comma replaced by [_], all
    other characters kept in order; so it holds no quote, white space or
    comma, a text without them is kept as it is, and sanitizing twice is
    sanitizing once. *)
Theorem computeFontCacheKey_settings {number : Type}
        (numberToString : number -> jsstring)
        (settingsToString :
           option (list (FontVariationSettingsType number)) -> jsstring)
        (fd : FontDescriptor number) :
  computeFontCacheKey numberToString settingsToString fd
  = join (lit ":") (fontFamily fd)
         ++ lit ":" ++ numberToString (fontSize fd)
         ++ lit ":" ++ numberToString (fontWeight fd)
         ++ lit ":"
         ++ map (fun c => if isWhiteSpace c || N.eqb c 44 then 95%N else c)
                (filter (fun c => negb (N.eqb 39 c))
                        (settingsToString (fontVariationSettings fd)))
         ++ lit ":" ++ boolToString (isBold fd)
         ++ lit ":" ++ boolToString (isItalic fd)
  /\ (forall s,
        sanitize s
        = map (fun c => if isWhiteSpace c || N.eqb c 44 then 95%N else c)
              (filter (fun c => negb (N.eqb 39 c)) s))
  /\ (forall s, forallb keyChar (sanitize s) = true)
  /\ (forall s, forallb keyChar s = true -> sanitize s = s)
  /\ (forall s, sanitize (sanitize s) = sanitize s).
Proof.
  assert (forall t, forallb keyChar (sanitize t) = true) as H1.
  { intros t; rewrite sanitize_spec.
    induction t as [|c t IH]; [reflexivity|].
    cbn [filter]; destruct (N.eqb 39 c) eqn:E39; cbn [negb]; [exact IH|].
    cbn [map forallb]; rewrite IH, andb_true_r.
    unfold keyChar.
    destruct (isWhiteSpace c || N.eqb c 44) eqn:Esep.
    - reflexivity.
    - now rewrite E39, Esep. }
  assert (forall t, forallb keyChar t = true -> sanitize t = t) as H2.
  { intros t; rewrite sanitize_spec.
    induction t as [|c t IH]; [reflexivity|].
    cbn [forallb filter]; intros H.
    apply andb_true_iff in H as [Hc Ht].
    unfold keyChar in Hc; apply andb_true_iff in Hc as [H39 Hsep].
    rewrite H39; cbn [map].
    apply negb_true_iff in Hsep; rewrite Hsep.
    now rewrite (IH Ht). }
  split; [|split; [exact sanitize_spec|split; [exact H1|split; [exact H2|]]]].
  - unfold computeFontCacheKey; cbn [join].
    now rewrite sanitize_spec.
  - intros s; apply H2, H1.
Qed.

End KeyFacts.

End FontCacheFacts.

(** * Registering fonts *)

Section FontRegistryFacts.

Import FontRegistry.

Variables Data CGFont : Type.
Variable appPath : jsstring.
Variable pathJoin : list jsstring -> jsstring.
Variable fileExists : jsstring -> bool.
Variable folderExists : jsstring -> bool.
Variable contentsAtPath : jsstring -> option Data.
Variable CGFontCreate : Data -> option CGFont.
Variable CTFontManagerRegisterGraphicsFont : CGFont -> list CGFont -> bool.
Variable traceEnabled : bool.
Variable entitiesOf : jsstring -> list Entity.

Local Abbreviation register :=
  (registerFont appPath pathJoin fileExists contentsAtPath CGFontCreate
                CTFontManagerRegisterGraphicsFont traceEnabled).
Local Abbreviation load :=
  (loadFont appPath pathJoin fileExists contentsAtPath CGFontCreate).
Local Abbreviation inFolder :=
  (registerFontsInFolder appPath pathJoin fileExists folderExists
                         contentsAtPath CGFontCreate
                         CTFontManagerRegisterGraphicsFont traceEnabled
                         entitiesOf).
Local Abbreviation fonts :=
  (loaded appPath pathJoin fileExists contentsAtPath CGFontCreate).
Local Abbreviation fontFile := (isFontFile pathJoin folderExists).
Local Abbreviation ok :=
  (loads appPath pathJoin fileExists contentsAtPath CGFontCreate).

Lemma registerFont_load (f : jsstring) (st : RegistryState CGFont) :
  match load f with
  | inl e => register f st = (inl e, st)
  | inr font =>
      fst (register f st) = inr tt
      /\ attempts (snd (register f st)) = attempts st ++ [font]
  end.
Proof.
  unfold registerFont, loadFont.
  destruct (fileExists _); cbn [negb];
    (destruct (contentsAtPath _) as [data|]; [|reflexivity];
     destruct (CGFontCreate data); [now split | reflexivity]).
Qed.

Local Abbreviation onEntity :=
  (onFontEntity appPath pathJoin fileExists folderExists contentsAtPath
                CGFontCreate CTFontManagerRegisterGraphicsFont traceEnabled).

Lemma onEntity_run (path : jsstring) (e : Entity)
      (st : RegistryState CGFont) :
  if fontFile path e then
    match load (name e) with
    | inl err => onEntity path e st = (inl err, st)
    | inr font =>
        fst (onEntity path e st) = inr true
        /\ attempts (snd (onEntity path e st)) = attempts st ++ [font]
    end
  else onEntity path e st = (inr true, st).
Proof.
  unfold onFontEntity, isFontFile.
  destruct (folderExists _); cbn [negb andb]; [reflexivity|].
  destruct (isFile e && _); [|reflexivity].
  pose proof (registerFont_load (name e) st) as H.
  unfold rbind; destruct (load (name e)) as [err|font].
  - now rewrite H.
  - destruct H as [H1 H2].
    destruct (register (name e) st) as [[x|[]] st']; cbn [fst snd] in *;
      [discriminate|].
    now split.
Qed.

Lemma eachEntity_run (path : jsstring) (es : list Entity) :
  forall st,
    (Forall ok (filter (fontFile path) es) ->
     fst (eachEntity es (onEntity path) st) = inr tt
     /\ attempts (snd (eachEntity es (onEntity path) st))
        = attempts st ++ fonts (filter (fontFile path) es))
    /\ (forall p e rest err,
           filter (fontFile path) es = p ++ e :: rest ->
           Forall ok p ->
           load (name e) = inl err ->
           fst (eachEntity es (onEntity path) st) = inl err
           /\ attempts (snd (eachEntity es (onEntity path) st))
              = attempts st ++ fonts p).
Proof.
  induction es as [|x es IH]; intros st.
  - split.
    + intros _; cbn; now rewrite app_nil_r.
    + intros [|? ?] ? ? ? H; discriminate.
  - cbn [eachEntity filter]; unfold rbind.
    pose proof (onEntity_run path x st) as Hx.
    destruct (fontFile path x).
    + destruct (load (name x)) as [errx|font] eqn:Ex.
      * rewrite Hx; split.
        -- intros HF; inversion HF as [|? ? [f Hf] _]; subst; congruence.
        -- intros [|y p] e rest err Hl Hp He; cbn [app] in Hl.
           ++ injection Hl as <- _.
              assert (errx = err) as -> by congruence.
              cbn; now rewrite app_nil_r.
           ++ injection Hl as <- _.
              inversion Hp as [|? ? [f Hf] _]; subst; congruence.
      * destruct Hx as [H1 H2].
        destruct (onEntity path x st) as [[e0|b] st1]; cbn [fst snd] in *;
          [discriminate|].
        injection H1 as ->.
        destruct (IH st1) as [IHa IHb]; split.
        -- intros HF; inversion HF as [|? ? _ HF']; subst.
           destruct (IHa HF') as [Ha1 Ha2]; split; [exact Ha1|].
           rewrite Ha2, H2; unfold loaded; cbn [flat_map].
           now rewrite Ex, <- app_assoc.
        -- intros [|y p] e rest err Hl Hp He; cbn [app] in Hl.
           ++ injection Hl as <- _; congruence.
           ++ injection Hl as <- Hl.
              inversion Hp as [|? ? _ Hp']; subst.
              destruct (IHb p e rest err Hl Hp' He) as [Hb1 Hb2].
              split; [exact Hb1|].
              rewrite Hb2, H2; unfold loaded; cbn [flat_map].
              now rewrite Ex, <- app_assoc.
    + rewrite Hx; exact (IH st).
Qed.

(** X15.  [registerFontsInFolder] hands to the font manager the fonts of
    the entities of the folder that are files with extension [.ttf] or
    [.otf] and whose path is not a folder, in the order of the folder, and
    nothing else.  When all of them load it returns; when one cannot be
    loaded, the call throws [Could not load font from:] with its name, the
    fonts in front of it have been handed over and none behind it is. *)
Theorem registerFontsInFolder_run (path : jsstring)
        (st : RegistryState CGFont) :
  (Forall ok (filter (fontFile path) (entitiesOf path)) ->
   fst (inFolder path st) = inr tt
   /\ attempts (snd (inFolder path st))
      = attempts st ++ fonts (filter (fontFile path) (entitiesOf path)))
  /\ (forall p e rest,
         filter (fontFile path) (entitiesOf path) = p ++ e :: rest ->
         Forall ok p ->
         ~ ok e ->
         fst (inFolder path st) = inl (couldNotLoad (name e))
         /\ attempts (snd (inFolder path st)) = attempts st ++ fonts p).
Proof.
  destruct (eachEntity_run path (entitiesOf path) st) as [Ha Hb].
  split; [exact Ha|].
  intros p e rest Hl Hp He.
  apply (Hb p e rest (couldNotLoad (name e)) Hl Hp).
  unfold loads, loadFont in *.
  destruct (fileExists _);
    (destruct (contentsAtPath _) as [data|]; [|reflexivity];
     destruct (CGFontCreate data) as [font|]; [|reflexivity];
     exfalso; apply He; now exists font).
Qed.

End FontRegistryFacts.

(** * The further properties on sample inputs *)

Lemma removeMarker_keeps_arguments_witness :
  occurs tag [] = false
  /\ removeMarker textCarriageReturn
     = [40%N] ++ lit "'Foo'," ++ [13%N] ++ [10%N; 41%N] ++ lit " class Foo {}"
  /\ removeMarker (tag ++ [40%N] ++ lit "1, 2")
     = [40%N] ++ lit "1, 2".
Proof.
  destruct (@removeMarker_keeps_arguments [] eq_refl) as [H1 H2].
  split; [reflexivity|]; split.
  - exact (H2 (lit "'Foo',") 13%N ([10%N; 41%N] ++ lit " class Foo {}")
              eq_refl eq_refl eq_refl).
  - exact (H1 (lit "1, 2") eq_refl).
Defined.

Lemma patchEnumerable_no_attribute_witness :
  hasAttribute emittedPlain = false
  /\ patchEnumerable emittedPlain = emittedPlain.
Proof.
  assert (hasAttribute emittedPlain = false) as H by (vm_compute; reflexivity).
  exact (conj H (@patchEnumerable_no_attribute emittedPlain H)).
Defined.

Lemma transform_calls_witness :
  value (transform echoCompiler sourceNested) = inr outNested
  /\ calls (transform echoCompiler sourceNested)
     = [callOf classOuter; callOf classA].
Proof.
  assert (value (transform echoCompiler sourceNested) = inr outNested) as H
      by (vm_compute; reflexivity).
  exact (conj H (@transform_calls echoCompiler sourceNested outNested H)).
Defined.

Lemma transform_succeeds_iff_witness :
  Forall (compiles echoCompiler)
         (flat_map outermost (statements sourceNested))
  /\ exists out, value (transform echoCompiler sourceNested) = inr out.
Proof.
  assert (Forall (compiles echoCompiler)
                 (flat_map outermost (statements sourceNested))) as H.
  { repeat constructor; eexists; reflexivity. }
  exact (conj H (proj2 (@transform_succeeds_iff echoCompiler sourceNested) H)).
Defined.

Lemma transform_stops_at_first_failure_witness :
  value (transform throwingCompiler sourceTwoFailures)
  = inl (Thrown (lit "')' expected."))
  /\ exists p f rest,
      flat_map outermost (statements sourceTwoFailures) = p ++ f :: rest
      /\ Forall (compiles throwingCompiler) p
      /\ throwingCompiler (removeMarker (getText f)) transpileOptions
         = inl (Thrown (lit "')' expected."))
      /\ calls (transform throwingCompiler sourceTwoFailures)
         = map callOf p ++ [callOf f].
Proof.
  assert (value (transform throwingCompiler sourceTwoFailures)
          = inl (Thrown (lit "')' expected."))) as H
      by (vm_compute; reflexivity).
  exact (conj H (@transform_stops_at_first_failure
                   throwingCompiler sourceTwoFailures _ H)).
Defined.

Lemma transform_twice_witness :
  value (transform echoCompiler sourceNested) = inr outNested
  /\ transform throwingCompiler outNested = ret outNested.
Proof.
  assert (value (transform echoCompiler sourceNested) = inr outNested) as H
      by (vm_compute; reflexivity).
  exact (conj H (proj2 (@transform_twice echoCompiler throwingCompiler
                                         sourceNested outNested H))).
Defined.

Section FontCacheSamples.

Import FontCache.

Lemma getUIFontCached_reuse_witness :
  sampleKey helvetica = sampleKey helvetica
  /\ exists font,
      fst (sampleCached helvetica emptyFonts) = Some font
      /\ fst (sampleCached helvetica oneFont) = Some font
      /\ uiFontCache (snd (sampleCached helvetica oneFont))
         = uiFontCache oneFont.
Proof.
  split; [reflexivity|].
  exact (@getUIFontCached_reuse
           N (jsstring * N) (jsstring * FontCache.JsMap N) jsstring
           sampleNumberToString sampleSettingsToString sampleCreateUIFont
           (@fst jsstring N) (fun name => (name, @nil (jsstring * N)))
           sampleAxes (fun a : jsstring => a)
           (fun (font : jsstring * FontCache.JsMap N) vars => (fst font, vars))
           (fun (font : jsstring * FontCache.JsMap N) size => (fst font, size))
           sampleFuzzySearch true helvetica helvetica emptyFonts eq_refl).
Defined.

Lemma getUIFontCached_keeps_entries_witness :
  FontCache.map_get (sampleKey helvetica) (uiFontCache oneFont)
  = Some (lit "Helvetica", 12%N)
  /\ FontCache.map_get (sampleKey helvetica)
                       (uiFontCache (snd (sampleCached inter oneFont)))
     = Some (lit "Helvetica", 12%N).
Proof.
  assert (FontCache.map_get (sampleKey helvetica) (uiFontCache oneFont)
          = Some (lit "Helvetica", 12%N)) as H by (vm_compute; reflexivity).
  refine (conj H _).
  exact (proj1 (@getUIFontCached_keeps_entries
           N (jsstring * N) (jsstring * FontCache.JsMap N) jsstring
           sampleNumberToString sampleSettingsToString sampleCreateUIFont
           (@fst jsstring N) (fun name => (name, @nil (jsstring * N)))
           sampleAxes (fun a : jsstring => a)
           (fun (font : jsstring * FontCache.JsMap N) vars => (fst font, vars))
           (fun (font : jsstring * FontCache.JsMap N) size => (fst font, size))
           sampleFuzzySearch true inter oneFont (sampleKey helvetica)) _ H).
Defined.

Lemma getUIFontCached_size_witness :
  NoDup (map fst (uiFontCache oneFont))
  /\ FontCache.map_size (uiFontCache (snd (sampleCached inter oneFont))) = 2
  /\ FontCache.map_size (uiFontCache (snd (sampleCached helvetica oneFont)))
     = 1.
Proof.
  assert (NoDup (map fst (uiFontCache oneFont))) as H.
  { vm_compute; repeat constructor; easy. }
  refine (conj H (conj _ _)).
  - exact (proj2 (proj2 (@getUIFontCached_size
           N (jsstring * N) (jsstring * FontCache.JsMap N) jsstring
           sampleNumberToString sampleSettingsToString sampleCreateUIFont
           (@fst jsstring N) (fun name => (name, @nil (jsstring * N)))
           sampleAxes (fun a : jsstring => a)
           (fun (font : jsstring * FontCache.JsMap N) vars => (fst font, vars))
           (fun (font : jsstring * FontCache.JsMap N) size => (fst font, size))
           sampleFuzzySearch true inter oneFont H))).
  - exact (proj2 (proj2 (@getUIFontCached_size
           N (jsstring * N) (jsstring * FontCache.JsMap N) jsstring
           sampleNumberToString sampleSettingsToString sampleCreateUIFont
           (@fst jsstring N) (fun name => (name, @nil (jsstring * N)))
           sampleAxes (fun a : jsstring => a)
           (fun (font : jsstring * FontCache.JsMap N) vars => (fst font, vars))
           (fun (font : jsstring * FontCache.JsMap N) size => (fst font, size))
           sampleFuzzySearch true helvetica oneFont H))).
Defined.

Lemma computeFontCacheKey_settings_witness :
  sampleKey inter
  = lit "Inter:Arial:14:700:wght_300__slnt_5__weight_650:true:false"
  /\ forallb keyChar (lit "wght_300") = true
  /\ sanitize (lit "wght_300") = lit "wght_300".
Proof.
  assert (forallb keyChar (lit "wght_300") = true) as H by reflexivity.
  destruct (computeFontCacheKey_settings sampleNumberToString
                                         sampleSettingsToString inter)
    as (H1 & _ & _ & H4 & _).
  exact (conj H1 (conj H (H4 (lit "wght_300") H))).
Defined.

Lemma getUIFontCached_variations_witness :
  map_has (sampleKey inter) (uiFontCache oneFont) = false
  /\ exists variations,
      fst (sampleCached inter oneFont)
      = Some (lit "Inter,Arial", 14%N)
      /\ map_get (lit "Weight") variations = Some 650%N
      /\ map_get (lit "Width") variations = None.
Proof.
  assert (map_has (sampleKey inter) (uiFontCache oneFont) = false) as H
      by (vm_compute; reflexivity).
  split; [exact H|].
  destruct (@getUIFontCached_variations
           N (jsstring * N) (jsstring * FontCache.JsMap N) jsstring
           sampleNumberToString sampleSettingsToString sampleCreateUIFont
           (@fst jsstring N) (fun name => (name, @nil (jsstring * N)))
           sampleAxes (fun a : jsstring => a)
           (fun (font : jsstring * FontCache.JsMap N) vars => (fst font, vars))
           (fun (font : jsstring * FontCache.JsMap N) size => (fst font, size))
           sampleFuzzySearch true inter oneFont H) as (variations & H1 & H2).
  exists variations; split; [exact H1|]; split.
  - exact (H2 (lit "Weight")).
  - exact (H2 (lit "Width")).
Defined.

End FontCacheSamples.

Section RegistrySampleFacts.

Import FontRegistry.

Lemma registerFontsInFolder_run_witness :
  (fst (sampleInFolder (lit "/app/other") noFonts) = inr tt
   /\ attempts (snd (sampleInFolder (lit "/app/other") noFonts))
      = [lit "/app/fonts/c.otf"])
  /\ (fst (sampleInFolder (lit "/app/fonts") noFonts)
      = inl (couldNotLoad (lit "broken.otf"))
      /\ attempts (snd (sampleInFolder (lit "/app/fonts") noFonts))
         = [lit "/app/fonts/a.ttf"]).
Proof.
  destruct (@registerFontsInFolder_run
              jsstring jsstring (lit "/app") samplePathJoin (fun _ => true)
              sampleFolderExists sampleContents
              (fun data : jsstring => Some data) (fun _ _ => true) false
              sampleEntities (lit "/app/other") noFonts) as [H1 _].
  destruct (@registerFontsInFolder_run
              jsstring jsstring (lit "/app") samplePathJoin (fun _ => true)
              sampleFolderExists sampleContents
              (fun data : jsstring => Some data) (fun _ _ => true) false
              sampleEntities (lit "/app/fonts") noFonts) as [_ H2].
  split.
  - apply H1.
    repeat constructor; eexists; vm_compute; reflexivity.
  - apply (H2 [mkEntity (lit "a.ttf") true (lit ".ttf")]
              (mkEntity (lit "broken.otf") true (lit ".otf"))
              [mkEntity (lit "b.ttf") true (lit ".ttf")]).
    + vm_compute; reflexivity.
    + repeat constructor; eexists; vm_compute; reflexivity.
    + intros [font Hf]; vm_compute in Hf; discriminate.
Defined.

End RegistrySampleFacts.

Lemma removeMarker_all_witness :
  markersPlain twoMarkers (lit " class Inner {} } }") = true
  /\ removeMarker
       (lit "@NativeClass() class Outer { m() { @NativeClass class Inner {} } }")
     = lit " class Outer { m() {  class Inner {} } }".
Proof.
  assert (markersPlain twoMarkers (lit " class Inner {} } }") = true) as H
      by (vm_compute; reflexivity).
  exact (conj H (@removeMarker_all twoMarkers (lit " class Inner {} } }") H)).
Defined.

Lemma patchEnumerable_all_witness :
  forallb callPlain twoAccessors = true
  /\ occurs (lit "Object.defineProperty(") (lit "; return A;") = false
  /\ patchEnumerable (emittedCalls false twoAccessors (lit "; return A;"))
     = emittedCalls true twoAccessors (lit "; return A;").
Proof.
  assert (forallb callPlain twoAccessors = true) as H
      by (vm_compute; reflexivity).
  exact (conj H (conj eq_refl
                      (@patchEnumerable_all twoAccessors (lit "; return A;")
                                            H eq_refl))).
Defined.
